(** * BilibiliRelationMap: acquisition pipeline and graph construction

    A shallow embedding of the data-acquisition layer (services/biliApi,
    utils/cacheManager, the useGraphData hook and the sequential loader) and
    of the graph transformation (useGraphTransform), with the properties
    stated about them.

    Conventions.
    - JavaScript integers (mids, HTTP status codes, epoch milliseconds) are
      [Z]; text is [string], a sequence of UTF-8 bytes, on which searching
      for a well-formed needle agrees with searching UTF-16 code units.
    - Code that can throw is written in the completion type [completion]:
      [Normal v] or [Throw e]; [try]/[catch] is [try_catch].
    - [JSON.parse] is not implemented: the cache takes it as a parameter,
      and an HTTP response carries what it makes of the body. [None] stands
      for the [SyntaxError] it raises, [Some v] for the value it yields at
      the TypeScript type the source annotates.
    - [Math.random()] and [Date.now()] are arguments of the functions that
      call them; numbers that are not integers are rationals. *)

From Stdlib Require Import ZArith QArith Qpower Qminmax Lia Lqa.
From Stdlib Require Import Ascii String DecimalString DecimalZ.
From stdpp Require Import gmap strings list fin_maps.

Local Open Scope string_scope.
Local Open Scope list_scope.
Local Open Scope Z_scope.

(** ** JavaScript text primitives *)

Module Js.

(** [Number.prototype.toString] / template interpolation of an integer. *)
Definition toString (z : Z) : string := NilZero.string_of_int (Z.to_int z).

(** [parseInt] on the decimal text of an integer, the only texts it is
    applied to here (node ids come from [toString]); [None] is [NaN]. *)
Definition parseInt (s : string) : option Z :=
  option_map Z.of_int (NilZero.int_of_string s).

(** [s.startsWith(sub)] *)
Fixpoint startsWith (s sub : string) : bool :=
  match sub with
  | EmptyString => true
  | String a sub' =>
      match s with
      | EmptyString => false
      | String b s' => Ascii.eqb a b && startsWith s' sub'
      end
  end.

(** [s.includes(sub)]: [sub] starts at some position of [s]. *)
Fixpoint includes (s sub : string) : bool :=
  startsWith s sub ||
  match s with
  | EmptyString => false
  | String _ s' => includes s' sub
  end.

(** Truthiness of a string: only the empty string is falsy. *)
Definition truthy (s : string) : bool :=
  match s with EmptyString => false | _ => true end.

End Js.

(** ** Completions: normal return or a thrown exception *)

Inductive completion (E A : Type) : Type :=
| Normal (a : A)
| Throw (e : E).
Arguments Normal {E A} a.
Arguments Throw {E A} e.

Definition bind {E A B} (c : completion E A) (k : A -> completion E B)
  : completion E B :=
  match c with
  | Normal a => k a
  | Throw e => Throw e
  end.

Definition try_catch {E A} (body : completion E A) (handler : E -> A) : A :=
  match body with
  | Normal a => a
  | Throw e => handler e
  end.


(** ** types/bilibili *)

Record FansItem := {
  mid : Z;
  uname : string;
  vipStatus : Z
}.

(** The [data] of a followings page: [list] may be missing or not an array
    ([None]). *)
Record FansResponse := {
  fans_list : option (list FansItem);
  fans_total : Z
}.

Record CommonFollowingsResponse := {
  cf_list : list FansItem;
  cf_total : Z
}.

(** [list.map((u) => u.mid)] *)
Definition mids_of (l : list FansItem) : list Z := mid <$> l.

(** ** utils/cacheManager over [localStorage] *)

Inductive exn :=
| SyntaxError
| QuotaExceededError.

(** [localStorage]: the stored texts, and the space the origin may use. *)
Record Storage := {
  items : gmap string string;
  quota : nat
}.

Definition storage_size (m : gmap string string) : nat :=
  map_fold (fun k v n => (String.length k + String.length v + n)%nat) 0%nat m.

Definition getItem (k : string) (st : Storage) : option string := items st !! k.

(** [setItem] raises once the stored texts would outgrow the quota. *)
Definition setItem (k v : string) (st : Storage) : completion exn Storage :=
  let items' := <[k := v]> (items st) in
  if (storage_size items' <=? quota st)%nat
  then Normal {| items := items'; quota := quota st |}
  else Throw QuotaExceededError.

Definition removeItem (k : string) (st : Storage) : Storage :=
  {| items := delete k (items st); quota := quota st |}.

Module CacheManager.

Record CacheItem (T : Type) := {
  data : T;
  expiry : Z
}.
Arguments data {T} c.
Arguments expiry {T} c.

Record CacheConfig := { expiryDays : Z }.

Definition DEFAULT_CONFIG : CacheConfig := {| expiryDays := 1 |}.

Definition prefix : string := "bilibili_helper_".

Section Methods.
Context {T : Type}.
(** [JSON.parse] at type [CacheItem<T>] ([None]: it throws) and
    [JSON.stringify]. *)
Variable JSON_parse : string -> option (CacheItem T).
Variable JSON_stringify : CacheItem T -> string.

Definition parse (item : string) : completion exn (CacheItem T) :=
  match JSON_parse item with
  | Some c => Normal c
  | None => Throw SyntaxError
  end.

(** [set(key, data)] at time [now = Date.now()]. *)
Definition set (config : CacheConfig) (now : Z) (key : string) (d : T)
    (st : Storage) : Storage :=
  let expiry := now + expiryDays config * 24 * 60 * 60 * 1000 in
  let cacheItem := {| data := d; expiry := expiry |} in
  try_catch
    (setItem (prefix +:+ key) (JSON_stringify cacheItem) st)
    (fun _ => st).

(** [remove(key)] *)
Definition remove (key : string) (st : Storage) : Storage :=
  try_catch (E := exn) (Normal (removeItem (prefix +:+ key) st)) (fun _ => st).

(** The [try] block of [get]. *)
Definition get_body (now : Z) (key : string) (st : Storage)
  : completion exn (option T * Storage) :=
  match getItem (prefix +:+ key) st with
  | None => Normal (None, st)
  | Some item =>
      if negb (Js.truthy item) then Normal (None, st)
      else
        bind (parse item) (fun cacheItem =>
          if now >? expiry cacheItem
          then Normal (None, remove key st)
          else Normal (Some (data cacheItem), st))
  end.

(** [get(key)] at time [now = Date.now()]: the value ([None] is [null])
    and the storage it leaves. *)
Definition get (now : Z) (key : string) (st : Storage)
  : option T * Storage :=
  try_catch (get_body now key st) (fun _ => (None, st)).

End Methods.

End CacheManager.

(** ** services/biliApi: retry policy and single request execution *)

Module BiliApi.

Record RetryConfig := {
  maxRetries : nat;
  baseDelayMs : Q;
  maxDelayMs : Q
}.

Definition DEFAULT_RETRY_CONFIG : RetryConfig :=
  {| maxRetries := 3; baseDelayMs := 1000; maxDelayMs := 10000 |}.

(** [calculateBackoffDelay]; [random] is the value [Math.random()] returned,
    and the arithmetic is exact (rational) arithmetic. *)
Definition calculateBackoffDelay (random : Q) (attempt : nat)
    (config : RetryConfig) : Q :=
  let exponentialDelay := (baseDelayMs config * 2 ^ Z.of_nat attempt)%Q in
  let jitter := (random * (3 # 10) * exponentialDelay)%Q in
  Qmin (exponentialDelay + jitter) (maxDelayMs config).

Record BiliApiResponse := {
  code : Z;
  message : string
}.

(** An [Error] object with the [statusCode] property the code may attach. *)
Record JsError := {
  err_message : string;
  statusCode : option Z
}.

Definition msg_network : string := "网络请求失败".
Definition msg_timeout : string := "请求超时".
Definition msg_parse : string := "响应解析失败".
Definition msg_risk_control : string := "请求被风控限制，请稍后重试".
Definition msg_failed : string := "请求失败".

(** [isRetryableError] *)
Definition isRetryableError (error : JsError) (statusCode : option Z) : bool :=
  if match statusCode with
     | Some sc => negb (sc =? 0) && ((sc =? 429) || (sc >=? 500))
     | None => false
     end
  then true
  else if Js.includes (err_message error) msg_network
          || Js.includes (err_message error) msg_timeout
  then true
  else false.

(** What [GM_xmlhttpRequest] delivers to its callbacks. [responseJSON] is
    what [JSON.parse(response.responseText)] makes of the body: [None] when
    it throws. *)
Record XhrResponse := {
  status : Z;
  statusText : string;
  responseJSON : option BiliApiResponse
}.

Inductive XhrEvent :=
| onload (response : XhrResponse)
| onerror
| ontimeout.

Inductive settled (A : Type) :=
| resolved (a : A)
| rejected (e : JsError).
Arguments resolved {A} a.
Arguments rejected {A} e.

(** [executeRequest]: how the promise settles for each callback. *)
Definition executeRequest (ev : XhrEvent) : settled (BiliApiResponse * Z) :=
  match ev with
  | onload response =>
      if (status response <? 200) || (status response >=? 300) then
        rejected {| err_message :=
                      "HTTP 错误: " +:+ Js.toString (status response) +:+ " "
                        +:+ statusText response;
                    statusCode := Some (status response) |}
      else
        match responseJSON response with
        | Some data =>
            if code data =? 0 then resolved (data, status response)
            else if code data =? -412 then
              rejected {| err_message := msg_risk_control;
                          statusCode := Some 429 |}
            else
              rejected {| err_message :=
                            if Js.truthy (message data) then message data
                            else msg_failed;
                          statusCode := None |}
        | None => rejected {| err_message := msg_parse; statusCode := None |}
        end
  | onerror => rejected {| err_message := msg_network; statusCode := None |}
  | ontimeout => rejected {| err_message := msg_timeout; statusCode := None |}
  end.

(** The test [request] applies in its [catch] block:
    [isRetryableError(lastError, (error as any)?.statusCode)]. *)
Definition retryable (e : JsError) : bool := isRetryableError e (statusCode e).

(** [request]: the loop [for (attempt = 0; attempt <= maxRetries; attempt++)].
    [xhr attempt] is the callback [GM_xmlhttpRequest] fires at that attempt
    and [random attempt] the draw of [Math.random()] there; the result is
    what the promise settles with and the backoff sleeps in order (the wait
    of [waitForRateLimit] is not recorded). [remaining] counts the attempts
    left after this one. *)
Fixpoint request_loop (config : RetryConfig) (xhr : nat → XhrEvent)
    (random : nat → Q) (remaining attempt : nat) (sleeps : list Q)
  : settled BiliApiResponse * list Q :=
  match executeRequest (xhr attempt) with
  | resolved (data, _) => (resolved data, sleeps)
  | rejected lastError =>
      if negb (retryable lastError) || (attempt =? maxRetries config)%nat
      then (rejected lastError, sleeps)
      else
        let backoffDelay := calculateBackoffDelay (random attempt) attempt config in
        match remaining with
        | O => (rejected lastError, sleeps ++ [backoffDelay])
        | S remaining' =>
            request_loop config xhr random remaining' (S attempt)
              (sleeps ++ [backoffDelay])
        end
  end.

Definition request (config : RetryConfig) (xhr : nat → XhrEvent)
    (random : nat → Q) : settled BiliApiResponse * list Q :=
  request_loop config xhr random (maxRetries config) 0 [].

(** *** [getCommonFollowings]: cache, then in-flight sharing, then request

    The event loop runs one task at a time, so the module state changes in
    two kinds of atomic steps: a caller invoking [getCommonFollowings] (which
    runs up to the first [await] of the underlying [request]), and the
    underlying [request] of a registered promise settling (which runs the rest
    of the [try] block and the [finally] block). *)

Record CommonFollowingsResult := {
  response : CommonFollowingsResponse;
  fromCache : bool
}.

(** A promise created by the inner [async] function, by identity. *)
Inductive PromiseState :=
| InFlight (vmid : Z)
| Fulfilled (r : CommonFollowingsResult)
| Rejected (e : JsError).

Record World := {
  storage : Storage;                       (* behind [cacheManager] *)
  pendingRequests : gmap string nat;       (* [Map<string, Promise>] *)
  promises : gmap nat PromiseState;
  issued : list Z;                         (* [request] calls, oldest first *)
  next : nat                               (* next promise identity *)
}.

(** What a caller's returned promise settles with: a cached response at
    once, or whatever the shared promise [p] settles with. *)
Inductive Handle :=
| CacheHit (r : CommonFollowingsResponse)
| Shared (p : nat).

Definition cacheKey (vmid : Z) : string :=
  "common_followings_" +:+ Js.toString vmid.

Definition pendingKey (vmid : Z) : string := "pending_" +:+ Js.toString vmid.

Section GetCommonFollowings.
Variable JSON_parse :
  string -> option (CacheManager.CacheItem CommonFollowingsResponse).
Variable JSON_stringify :
  CacheManager.CacheItem CommonFollowingsResponse -> string.

Definition getCommonFollowings (vmid : Z) (useCache : bool) (now : Z)
    (w : World) : Handle * World :=
  let '(cached, st) :=
    if useCache
    then CacheManager.get JSON_parse now (cacheKey vmid) (storage w)
    else (None, storage w) in
  match cached with
  | Some r =>
      (CacheHit r,
       {| storage := st; pendingRequests := pendingRequests w;
          promises := promises w; issued := issued w; next := next w |})
  | None =>
      match pendingRequests w !! pendingKey vmid with
      | Some p =>
          (Shared p,
           {| storage := st; pendingRequests := pendingRequests w;
              promises := promises w; issued := issued w; next := next w |})
      | None =>
          let p := next w in
          (Shared p,
           {| storage := st;
              pendingRequests := <[pendingKey vmid := p]> (pendingRequests w);
              promises := <[p := InFlight vmid]> (promises w);
              issued := issued w ++ [vmid];
              next := S p |})
      end
  end.

(** The underlying [request] of promise [p] settles with [outcome] at time
    [now]: on success the response is cached; in both cases the [finally]
    block deletes the pending entry, and [p] settles. *)
Definition settle (p : nat) (outcome : settled CommonFollowingsResponse)
    (now : Z) (w : World) : World :=
  match promises w !! p with
  | Some (InFlight vmid) =>
      match outcome with
      | resolved r =>
          {| storage :=
               CacheManager.set JSON_stringify CacheManager.DEFAULT_CONFIG
                 now (cacheKey vmid) r (storage w);
             pendingRequests := delete (pendingKey vmid) (pendingRequests w);
             promises :=
               <[p := Fulfilled {| response := r; fromCache := false |}]>
                 (promises w);
             issued := issued w; next := next w |}
      | rejected e =>
          {| storage := storage w;
             pendingRequests := delete (pendingKey vmid) (pendingRequests w);
             promises := <[p := Rejected e]> (promises w);
             issued := issued w; next := next w |}
      end
  | _ => w
  end.

Inductive Event :=
| Call (vmid : Z) (useCache : bool) (now : Z)
| Settle (p : nat) (outcome : settled CommonFollowingsResponse) (now : Z).

Definition step (w : World) (ev : Event) : World :=
  match ev with
  | Call vmid useCache now => snd (getCommonFollowings vmid useCache now w)
  | Settle p outcome now => settle p outcome now w
  end.

Definition run (w : World) (evs : list Event) : World := fold_left step evs w.

(** Module load: nothing pending, no promise yet. *)
Definition init (st : Storage) : World :=
  {| storage := st; pendingRequests := ∅; promises := ∅;
     issued := []; next := 0%nat |}.

(** What the promise behind a handle has settled with, if it has. *)
Definition outcome (w : World) (h : Handle)
  : option (settled CommonFollowingsResult) :=
  match h with
  | CacheHit r => Some (resolved {| response := r; fromCache := true |})
  | Shared p =>
      match promises w !! p with
      | Some (Fulfilled r) => Some (resolved r)
      | Some (Rejected e) => Some (rejected e)
      | _ => None
      end
  end.

End GetCommonFollowings.

End BiliApi.

(** ** Observable effects of the loaders *)

Inductive Effect :=
| FetchPage (ps pn : Z)            (* [getFollowingsList({vmid, ps, pn})] *)
| FetchCommon (mid : Z)            (* [getCommonFollowings(mid)] *)
| Sleep (ms : Z)                   (* [setTimeout(resolve, ms)] awaited *)
| Info (done total : nat)          (* [message.info] progress line *)
| Warn (page : Z).                 (* [console.warn]: page skipped *)


(** [Math.ceil(a / b)] for a positive divisor. *)
Definition ceil_div (a b : Z) : Z := - ((- a) / b).

(** ** components/FollowingsGraph/useGraphData *)

Module UseGraphData.

Import BiliApi.

Definition pageSize : Z := 50.
Definition batchSize : nat := 10.
Definition delay : Z := 300.

(** Spreading [undefined] into [push] raises a [TypeError]. *)
Definition not_iterable : JsError :=
  {| err_message := "firstResponse.data.list is not iterable";
     statusCode := None |}.

Section Loaders.
(** The two API functions, by what the awaited promise settles with:
    [getFollowingsList ps pn] and [getCommonFollowings mid]. The hook reads
    only the response of the latter; [fromCache] records whether it was
    served from the cache, which the hook has no way to see. *)
Variable getFollowingsList : Z -> Z -> completion JsError FansResponse.
Variable getCommonFollowings : Z -> completion JsError CommonFollowingsResult.
(** The order in which the callbacks of one [Promise.all] batch resume. *)
Variable completion_order : list Z -> list Z.

(** The loop [for (page = 2; page <= totalPages; page++)] of [loadAllData],
    over the pages it visits. *)
Fixpoint load_pages (total : Z) (pages : list Z) (allFollowings : list FansItem)
    (tr : list Effect) : list Effect * completion JsError (list FansItem) :=
  match pages with
  | [] => (tr, Normal allFollowings)
  | page :: rest =>
      match getFollowingsList pageSize page with
      | Throw e => (tr ++ [FetchPage pageSize page], Throw e)
      | Normal response =>
          let tr1 := tr ++ [FetchPage pageSize page] in
          let '(allFollowings1, tr2) :=
            match fans_list response with
            | Some l => (allFollowings ++ l, tr1)
            | None => (allFollowings, tr1 ++ [Warn page])
            end in
          let tr3 :=
            if page mod 5 =? 0
            then tr2 ++ [Info (length allFollowings1) (Z.to_nat total)]
            else tr2 in
          load_pages total rest allFollowings1 tr3
      end
  end.

(** The paged part of [loadAllData]: page 1, then pages 2..totalPages. *)
Definition loadAllData_followings
  : list Effect * completion JsError (list FansItem) :=
  match getFollowingsList pageSize 1 with
  | Throw e => ([FetchPage pageSize 1], Throw e)
  | Normal firstResponse =>
      match fans_list firstResponse with
      | None => ([FetchPage pageSize 1], Throw not_iterable)
      | Some l =>
          let totalPages := ceil_div (fans_total firstResponse) pageSize in
          load_pages (fans_total firstResponse)
            (Z.of_nat <$> seq 2 (Z.to_nat (totalPages - 1)))
            l [FetchPage pageSize 1]
      end
  end.


(** The callback of [batch.map]: [try { ... map.set(mid, commonMids) }
    catch { map.set(mid, []) }]. *)
Definition load_one (map : gmap Z (list Z)) (mid : Z) : gmap Z (list Z) :=
  match getCommonFollowings mid with
  | Normal result =>
      <[mid := mids_of (cf_list (response result))]> map
  | Throw _ => <[mid := []]> map
  end.

(** [for (let i = 0; i < mids.length; i += batchSize)]; [fuel] bounds the
    number of iterations. *)
Fixpoint batch_loop (fuel : nat) (i : nat) (mids : list Z)
    (map : gmap Z (list Z)) (tr : list Effect)
  : gmap Z (list Z) * list Effect :=
  match fuel with
  | O => (map, tr)
  | S fuel' =>
      if (i <? length mids)%nat then
        let batch := take batchSize (drop i mids) in
        let tr1 := tr ++ (FetchCommon <$> batch) in
        let map1 := foldl load_one map (completion_order batch) in
        let tr2 :=
          if ((i + batchSize) mod 50 =? 0)%nat
             || (length mids <=? i + batchSize)%nat
          then tr1 ++ [Info (Nat.min (i + batchSize) (length mids))
                            (length mids)]
          else tr1 in
        let tr3 :=
          if (i + batchSize <? length mids)%nat
          then tr2 ++ [Sleep delay]
          else tr2 in
        batch_loop fuel' (i + batchSize) mids map1 tr3
      else (map, tr)
  end.

(** [loadCommonFollowingsBatch(mids)]: the map handed to
    [setCommonFollowingsMap], and the effects in order. *)
Definition loadCommonFollowingsBatch (mids : list Z)
  : gmap Z (list Z) * list Effect :=
  batch_loop (length mids) 0 mids ∅ [].

End Loaders.

End UseGraphData.

(** ** The sequential loader (one identifier at a time) *)

Module SequentialLoader.

Import BiliApi.

Section Loader.
Variable getCommonFollowings : Z -> completion JsError CommonFollowingsResult.

(** The relation loop of [loadAllData]: for each followed uid,
    [try { result = await getCommonFollowings(uid); user.following = ...;
    await sleep(result.fromCache ? 10 : 300) } catch { user.following = [] }]. *)
Fixpoint load_relations (uids : list Z) (following : gmap Z (list Z))
    (tr : list Effect) : gmap Z (list Z) * list Effect :=
  match uids with
  | [] => (following, tr)
  | uid :: rest =>
      match getCommonFollowings uid with
      | Normal result =>
          load_relations rest
            (<[uid := mids_of (cf_list (response result))]> following)
            (tr ++ [FetchCommon uid;
                    Sleep (if fromCache result then 10 else 300)])
      | Throw _ =>
          load_relations rest (<[uid := []]> following)
            (tr ++ [FetchCommon uid])
      end
  end.

End Loader.

End SequentialLoader.

(** ** components/FollowingsGraph/useGraphTransform *)

Module GraphTransform.

Definition NODE_COLOR_VIP : string := "#ff4080b2".
Definition NODE_COLOR_NORMAL : string := "#00e1ffb0".
Definition LINK_COLOR_BIDIRECTIONAL : string := "#FFD700".

(** [size] is a floating-point function of the degree set after the node
    list is final; it does not enter any list, set or map below and is left
    out of the record. *)
Record GraphNode := {
  id : string;
  label : string;
  color : string
}.

Record GraphLink := {
  source : string;
  target : string;
  link_color : option string          (* [None] is [undefined] *)
}.

Record GraphStats := {
  total : nat;
  connected : nat;
  links_count : nat
}.

Record Edge := {
  e_source : string;
  e_target : string
}.

(** A [Map<string, V>] in insertion order; [has_key] is [Map.has]. *)
Definition has_key {V} (m : list (string * V)) (k : string) : bool :=
  bool_decide (k ∈ m.*1).

(** Template literal [`${source}-${target}`]. *)
Definition link_key (source target : string) : string :=
  source +:+ "-" +:+ target.

(** Step 1: one node per distinct id, in order of first appearance. *)
Definition add_user (m : list (string * GraphNode)) (user : FansItem)
  : list (string * GraphNode) :=
  let id := Js.toString (mid user) in
  if has_key m id then m
  else m ++ [(id, {| id := id;
                     label := uname user;
                     color := if vipStatus user =? 0 then NODE_COLOR_NORMAL
                              else NODE_COLOR_VIP |})].

Definition uniqueNodesMap (followingsList : list FansItem)
  : list (string * GraphNode) :=
  foldl add_user [] followingsList.

(** [new Set(allNodes.map((n) => parseInt(n.id)))], as far as [has] on an
    integer can tell: a [NaN] member matches no integer. *)
Definition followingMidSet (allNodes : list GraphNode) : gset Z :=
  list_to_set (omap (fun n => Js.parseInt (id n)) allNodes).

(** Step 2a: the inner [commonMids.forEach]; the state is [edgeMap] and
    [linkSet]. *)
Definition add_common (node : GraphNode) (fset : gset Z)
    (st : list (string * Edge) * gset string) (commonMid : Z)
  : list (string * Edge) * gset string :=
  if bool_decide (commonMid ∈ fset) then
    let source := id node in
    let target := Js.toString commonMid in
    let linkKey := link_key source target in
    if bool_decide (linkKey ∈ st.2) then st
    else (st.1 ++ [(linkKey, {| e_source := source; e_target := target |})],
          {[linkKey]} ∪ st.2)
  else st.

(** The outer [allNodes.forEach]. *)
Definition add_node_edges (commonFollowingsMap : gmap Z (list Z))
    (fset : gset Z) (st : list (string * Edge) * gset string)
    (node : GraphNode) : list (string * Edge) * gset string :=
  match Js.parseInt (id node) with
  | None => st
  | Some mid =>
      match commonFollowingsMap !! mid with
      | None => st
      | Some commonMids => foldl (add_common node fset) st commonMids
      end
  end.

Definition collect_edges (commonFollowingsMap : gmap Z (list Z))
    (allNodes : list GraphNode) : list (string * Edge) * gset string :=
  foldl (add_node_edges commonFollowingsMap (followingMidSet allNodes))
        ([], ∅) allNodes.

(** Step 2b: the first [edgeMap.forEach]. *)
Definition mark_bidirectional (edgeMap : list (string * Edge))
    (bs : gset string) (entry : string * Edge) : gset string :=
  let reverseKey := link_key (e_target entry.2) (e_source entry.2) in
  if has_key edgeMap reverseKey
  then {[reverseKey]} ∪ ({[entry.1]} ∪ bs)
  else bs.

Definition bidirectionalSet (edgeMap : list (string * Edge)) : gset string :=
  foldl (mark_bidirectional edgeMap) ∅ edgeMap.

(** Step 2c: the second [edgeMap.forEach], pushing one link per entry. *)
Definition make_link (swapLinkDirection : bool) (bs : gset string)
    (entry : string * Edge) : GraphLink :=
  let isBidirectional := bool_decide (entry.1 ∈ bs) in
  let c := if isBidirectional then Some LINK_COLOR_BIDIRECTIONAL else None in
  if swapLinkDirection
  then {| source := e_target entry.2; target := e_source entry.2;
          link_color := c |}
  else {| source := e_source entry.2; target := e_target entry.2;
          link_color := c |}.

(** Step 3: ids that occur in some link. *)
Definition connectedNodeIds (links : list GraphLink) : gset string :=
  foldl (fun s link => {[target link]} ∪ ({[source link]} ∪ s)) ∅ links.

(** Step 4: [nodeDegree.set(x, (nodeDegree.get(x) || 0) + 1)] for both ends. *)
Definition bump (m : gmap string nat) (x : string) : gmap string nat :=
  <[x := (default 0 (m !! x) + 1)%nat]> m.

Definition nodeDegree (links : list GraphLink) : gmap string nat :=
  foldl (fun m link => bump (bump m (source link)) (target link)) ∅ links.

Record GraphData := {
  nodes : list GraphNode;
  links : list GraphLink;
  nodeDegreeMap : gmap string nat;
  stats : GraphStats
}.

(** The body of the [useMemo] callback once data is present. *)
Definition buildGraph (followingsList : list FansItem)
    (commonFollowingsMap : gmap Z (list Z)) (swapLinkDirection : bool)
  : GraphData :=
  let allNodes := (uniqueNodesMap followingsList).*2 in
  let edgeMap := (collect_edges commonFollowingsMap allNodes).1 in
  let bs := bidirectionalSet edgeMap in
  let links := make_link swapLinkDirection bs <$> edgeMap in
  let connected := connectedNodeIds links in
  let filteredNodes :=
    filter (fun node => id node ∈ connected) allNodes in
  let nodeDegree := nodeDegree links in
  {| nodes := filteredNodes;
     links := links;
     nodeDegreeMap := nodeDegree;
     stats := {| total := length allNodes;
                 connected := length filteredNodes;
                 links_count := length links |} |}.

Definition useGraphTransform (followingsList : list FansItem)
    (commonFollowingsMap : gmap Z (list Z)) (swapLinkDirection : bool)
    (dataLoaded : bool) : option GraphData :=
  if negb dataLoaded || (length followingsList =? 0)%nat then None
  else Some (buildGraph followingsList commonFollowingsMap swapLinkDirection).

(** The degree of a node: its entry in [nodeDegree], 0 when it has none. *)
Definition degree (g : GraphData) (n : GraphNode) : nat :=
  default 0%nat (nodeDegreeMap g !! id n).

(** A link carries the bidirectional tag. *)
Definition tagged (l : GraphLink) : Prop :=
  link_color l = Some LINK_COLOR_BIDIRECTIONAL.

End GraphTransform.

(** * Vocabulary of the statements

    Predicates, invariants and sample data the properties below are
    stated with. *)

Module JsDefs.

Import Js.

Definition is_digit (c : ascii) : bool :=
  (48 <=? nat_of_ascii c)%nat && (nat_of_ascii c <=? 57)%nat.

Fixpoint all_digits (s : string) : bool :=
  match s with
  | EmptyString => true
  | String c s' => is_digit c && all_digits s'
  end.

(** Characters of an integer's text: digits or the minus sign. *)
Definition is_num_char (c : ascii) : bool := is_digit c || Ascii.eqb c "-".

Fixpoint all_chars (P : ascii → bool) (s : string) : bool :=
  match s with
  | EmptyString => true
  | String c s' => P c && all_chars P s'
  end.

End JsDefs.

Module BiliApiDefs.

Import Js BiliApi.

(** The rule as the specification words it: retryable exactly for transport
    status 429 or 5xx, a network failure, a timeout, or application code
    -412 whatever the transport status. *)
Definition stated_retryable (ev : XhrEvent) : Prop :=
  match ev with
  | onerror | ontimeout => True
  | onload r =>
      status r = 429 ∨ 500 ≤ status r
      ∨ ∃ d, responseJSON r = Some d ∧ code d = -412
  end.

Definition retry_rule_as_stated : Prop :=
  ∀ ev e, executeRequest ev = rejected e →
    (retryable e = true ↔ stated_retryable ev).

(** What the code decides, on the transport status and the parsed body. *)
Definition code_retryable (ev : XhrEvent) : Prop :=
  match ev with
  | onerror | ontimeout => True
  | onload r =>
      status r = 429 ∨ 500 ≤ status r
      ∨ (200 ≤ status r < 300
         ∧ ∃ d, responseJSON r = Some d ∧ code d = -412)
  end.

(** A text that contains neither of the two phrases [isRetryableError]
    searches for. *)
Definition plain (s : string) : Prop :=
  includes s msg_network = false ∧ includes s msg_timeout = false.

Definition server_text_plain (ev : XhrEvent) : Prop :=
  match ev with
  | onload r =>
      plain (statusText r) ∧ ∀ d, responseJSON r = Some d → plain (message d)
  | _ => True
  end.

(** Risk control on the first two attempts, success on the third. *)
Definition limited_twice (attempt : nat) : XhrEvent :=
  onload {| status := 200; statusText := "OK";
            responseJSON :=
              Some {| code := if (attempt <? 2)%nat then -412 else 0;
                      message := "" |} |}.


End BiliApiDefs.

Module CacheDefs.

Import CacheManager.

(** A parser for examples: one text is a stored item that expired at time
    1000, every other text is malformed. *)
Definition sample_parse (s : string) : option (CacheItem Z) :=
  if String.eqb s "stale" then Some {| data := 7; expiry := 1000 |} else None.

Definition sample_storage : Storage :=
  {| items := {[ prefix +:+ "k" := "stale"; prefix +:+ "bad" := "{oops" ]};
     quota := 4096 |}.

End CacheDefs.

Module DedupDefs.

Import BiliApi.

(** The underlying request of promise [p], made for identifier [v], has not
    settled. *)
Definition in_flight (w : World) (p : nat) (v : Z) : Prop :=
  promises w !! p = Some (InFlight v).

(** The pending map and the unsettled promises describe each other. *)
Record consistent (w : World) : Prop := {
  pending_in_flight :
    ∀ k p, pendingRequests w !! k = Some p →
           ∃ v, k = pendingKey v ∧ in_flight w p v;
  in_flight_pending :
    ∀ p v, in_flight w p v → pendingRequests w !! pendingKey v = Some p;
  promises_below_next :
    ∀ p s, promises w !! p = Some s → (p < next w)%nat
}.

(** The parts of the world a cache read cannot touch. *)
Definition same_core (w w' : World) : Prop :=
  pendingRequests w' = pendingRequests w ∧ promises w' = promises w
  ∧ issued w' = issued w ∧ next w' = next w.

Definition requests_for (v : Z) (w : World) : nat :=
  count_occ Z.eq_dec (issued w) v.

(** What promise [p] settles with when its request settles with [o]. *)
Definition result_of (o : settled CommonFollowingsResponse)
  : settled CommonFollowingsResult :=
  match o with
  | resolved r => resolved {| response := r; fromCache := false |}
  | rejected e => rejected e
  end.

(** Example parties: a cache that never parses, a request for identifier 7. *)
Definition no_parse (s : string)
  : option (CacheManager.CacheItem CommonFollowingsResponse) := None.

Definition some_text (c : CacheManager.CacheItem CommonFollowingsResponse)
  : string := "{}".

Definition empty_storage : Storage := {| items := ∅; quota := 4096 |}.

End DedupDefs.

Module PagingDefs.

Import BiliApi UseGraphData.

(** A server that serves [items] in pages of [ps], reporting their number. *)
Definition paged_server (items : list FansItem) (ps pn : Z)
  : completion JsError FansResponse :=
  Normal {| fans_list :=
              Some (take (Z.to_nat ps) (drop (Z.to_nat (ps * (pn - 1))) items));
            fans_total := Z.of_nat (length items) |}.

Definition sample_items : list FansItem :=
  (fun n => {| mid := Z.of_nat n; uname := "u"; vipStatus := 0 |}) <$> seq 1 125.

End PagingDefs.

Module BatchDefs.

Import BiliApi UseGraphData.

(** Every identifier answered from the cache, with an empty list. *)
Definition all_cached (mid : Z) : completion JsError CommonFollowingsResult :=
  Normal {| response := {| cf_list := []; cf_total := 0 |}; fromCache := true |}.




End BatchDefs.

Module GraphDefs.

Import Js GraphTransform.

(** Keys are the ids of their nodes, ids are texts of integers, and no key
    occurs twice. *)
Definition nodes_ok (m : list (string * GraphNode)) : Prop :=
  NoDup m.*1
  ∧ ∀ k n, (k, n) ∈ m → k = id n ∧ ∃ z, id n = toString z.

(** [edgeMap] and [linkSet] after any number of insertions: keys are
    distinct, [linkSet] is the set of keys, every key is built from its
    edge, and both ends of every edge are ids of nodes, texts of integers. *)
Definition edges_ok (ids : list string)
    (st : list (string * Edge) * gset string) : Prop :=
  NoDup st.1.*1
  ∧ (∀ k, k ∈ st.2 ↔ k ∈ st.1.*1)
  ∧ ∀ k e, (k, e) ∈ st.1 →
      k = link_key (e_source e) (e_target e)
      ∧ (∃ a b, e_source e = toString a ∧ e_target e = toString b)
      ∧ e_source e ∈ ids ∧ e_target e ∈ ids.

Definition reverse_key (e : Edge) : string :=
  link_key (e_target e) (e_source e).

(** Both ends of every link, link by link. *)
Definition endpoints (ls : list GraphLink) : list string :=
  flat_map (λ l, [source l; target l]) ls.

Definition occurrences (k : string) (xs : list string) : nat :=
  count_occ String.string_dec xs k.

(** The scenario of three follows 1, 2, 3 with common followings
    1 -> [2], 2 -> [1, 3], 3 -> []. *)
Definition three_follows : list FansItem :=
  [ {| mid := 1; uname := "A"; vipStatus := 0 |};
    {| mid := 2; uname := "B"; vipStatus := 1 |};
    {| mid := 3; uname := "C"; vipStatus := 0 |} ].

Definition three_common : gmap Z (list Z) :=
  {[ 1 := [2]; 2 := [1; 3]; 3 := [] ]}.

End GraphDefs.

(** * Further vocabulary: graph construction *)

Module GraphMoreDefs.

Import Js GraphTransform.

(** The same link drawn the other way round. *)
Definition flip_link (l : GraphLink) : GraphLink :=
  {| source := target l; target := source l; link_color := link_color l |}.

(** The ordered pair of ids a link joins. *)
Definition ends_of (l : GraphLink) : string * string := (source l, target l).

(** The node the first pass makes of a followed user. *)
Definition node_of (user : FansItem) : GraphNode :=
  {| id := toString (mid user);
     label := uname user;
     color := if vipStatus user =? 0 then NODE_COLOR_NORMAL
              else NODE_COLOR_VIP |}.

(** The nodes before the isolated ones are filtered out. *)
Definition allNodes_of (followingsList : list FansItem) : list GraphNode :=
  (uniqueNodesMap followingsList).*2.

(** A link of the graph runs between the nodes of [a] and [b], stored from
    [a] to [b], or from [b] to [a] when the direction flag is set. *)
Definition link_between (swap : bool) (a b : Z) (l : GraphLink) : Prop :=
  if swap then source l = toString b ∧ target l = toString a
  else source l = toString a ∧ target l = toString b.

(** What a node contributes to the key set. *)
Definition contributes (cmap : gmap Z (list Z)) (fset : gset Z)
    (node : GraphNode) (k : string) : Prop :=
  ∃ m cms c, parseInt (id node) = Some m ∧ cmap !! m = Some cms
             ∧ c ∈ cms ∧ c ∈ fset ∧ k = link_key (id node) (toString c).

End GraphMoreDefs.

(** * Further model: the rate limiter of services/biliApi *)

Module RateLimiter.

Definition MIN_REQUEST_INTERVAL_MS : Z := 300.

(** The test of [waitForRateLimit]: the delay it awaits, if any, given
    [lastRequestTime] and [now = Date.now()]. *)
Definition pending_delay (lastRequestTime now : Z) : option Z :=
  let timeSinceLastRequest := now - lastRequestTime in
  if timeSinceLastRequest <? MIN_REQUEST_INTERVAL_MS
  then Some (MIN_REQUEST_INTERVAL_MS - timeSinceLastRequest)
  else None.

(** [waitForRateLimit] up to its [await]: when it has to wait it leaves
    [lastRequestTime] alone and is due at [now + delay]; otherwise it runs to
    its end and sets [lastRequestTime = Date.now()]. The result is the due
    time, if it waits, and [lastRequestTime] afterwards. *)
Definition enter (lastRequestTime now : Z) : option Z * Z :=
  match pending_delay lastRequestTime now with
  | Some d => (Some (now + d), lastRequestTime)
  | None => (None, now)
  end.

(** [waitForRateLimit] with no other task in between: the timer fires [late]
    ms after it is due, and the time at which the function returns becomes
    [lastRequestTime]. *)
Definition waitForRateLimit (late : Z) (lastRequestTime now : Z) : Z :=
  match enter lastRequestTime now with
  | (Some due, _) => due + late
  | (None, lastRequestTime') => lastRequestTime'
  end.

(** Calls made one after the other, each given by the clock at its start and
    the lateness of its timer: the times at which they return. *)
Fixpoint sequential_grants (lastRequestTime : Z) (calls : list (Z * Z))
  : list Z :=
  match calls with
  | [] => []
  | (now, late) :: rest =>
      let t := waitForRateLimit late lastRequestTime now in
      t :: sequential_grants t rest
  end.

(** [n] calls entered at the same instant, before any of them resumes: what
    each is told. *)
Fixpoint burst (lastRequestTime now : Z) (n : nat) : list (option Z) :=
  match n with
  | O => []
  | S n' =>
      let '(due, lastRequestTime') := enter lastRequestTime now in
      due :: burst lastRequestTime' now n'
  end.

End RateLimiter.

(** * Further vocabulary: retries *)

Module BiliApiMoreDefs.

Import BiliApi.





End BiliApiMoreDefs.

(** * Further vocabulary: request deduplication *)

Module DedupMoreDefs.

Import BiliApi DedupDefs.

(** Requests and promises correspond: the p-th request issued is the one
    promise [p] stands for, and there are no other promises. *)
Definition ledger (w : World) : Prop :=
  length (issued w) = next w
  ∧ (∀ p, is_Some (promises w !! p) ↔ (p < next w)%nat)
  ∧ ∀ p v, in_flight w p v → issued w !! p = Some v.

(** The item [set] writes for a response cached at time [t]. *)
Definition cached_item (r : CommonFollowingsResponse) (t : Z)
  : CacheManager.CacheItem CommonFollowingsResponse :=
  {| CacheManager.data := r;
     CacheManager.expiry :=
       t + CacheManager.expiryDays CacheManager.DEFAULT_CONFIG
           * 24 * 60 * 60 * 1000 |}.

(** Example parties: one response, and a codec that knows its item. *)
Definition one_response : CommonFollowingsResponse :=
  {| cf_list := [{| mid := 9; uname := "nine"; vipStatus := 0 |}];
     cf_total := 1 |}.

Definition one_text (c : CacheManager.CacheItem CommonFollowingsResponse)
  : string := "item".

Definition one_parse (s : string)
  : option (CacheManager.CacheItem CommonFollowingsResponse) :=
  if String.eqb s "item" then Some (cached_item one_response 1000) else None.

End DedupMoreDefs.

(** * Further model: the rest of utils/cacheManager *)

Module CacheManagerMore.

Import CacheManager.

(** [clear()]: every key of [localStorage] that starts with the prefix is
    removed; the keys are visited in the order [Object.keys] gives them. *)
Definition clear (st : Storage) : Storage :=
  try_catch (E := exn)
    (Normal
       (foldl (λ st key,
                 if Js.startsWith key prefix then removeItem key st else st)
              st (map_to_list (items st)).*1))
    (λ _, st).

(** [updateConfig(config)]: the fields present in [config] replace the
    current ones. *)
Definition updateConfig (expiryDays' : option Z) (config : CacheConfig)
  : CacheConfig :=
  {| expiryDays := default (expiryDays config) expiryDays' |}.

End CacheManagerMore.

(** * Further vocabulary: the cache *)

Module CacheMoreDefs.

Import CacheManager.

(** A codec for examples on integer payloads: the text of an item is
    "data@expiry"; only the item (7, 86400000) is read back. *)
Definition at_text (c : CacheItem Z) : string :=
  Js.toString (data c) +:+ "@" +:+ Js.toString (expiry c).

Definition at_parse (s : string) : option (CacheItem Z) :=
  if String.eqb s "7@86400000"
  then Some {| data := 7; expiry := 86400000 |} else None.

(** A storage with one cache entry and one entry of another application. *)
Definition mixed_storage : Storage :=
  {| items := {[ prefix +:+ "k" := "7@86400000"; "theme" := "dark" ]};
     quota := 4096 |}.

End CacheMoreDefs.

(** * Further vocabulary: the loaders *)

Module LoaderMoreDefs.

Import BiliApi UseGraphData.

Definition is_page_fetch (e : Effect) : bool :=
  match e with FetchPage _ _ => true | _ => false end.

Definition is_warning (e : Effect) : bool :=
  match e with Warn _ => true | _ => false end.

Definition is_common_fetch (e : Effect) : bool :=
  match e with FetchCommon _ => true | _ => false end.

(** The items a page adds to the list: those of its list, none when the
    list is missing. *)
Definition page_items
    (getFollowingsList : Z → Z → completion JsError FansResponse) (pn : Z)
  : list FansItem :=
  match getFollowingsList pageSize pn with
  | Normal r => default [] (fans_list r)
  | Throw _ => []
  end.

(** The page is delivered, but without a list. *)
Definition malformed
    (getFollowingsList : Z → Z → completion JsError FansResponse) (pn : Z)
  : bool :=
  match getFollowingsList pageSize pn with
  | Normal r => match fans_list r with None => true | Some _ => false end
  | Throw _ => false
  end.

(** Pages [from], [from + 1], ..., [n] of them. *)
Definition page_numbers (from n : nat) : list Z := Z.of_nat <$> seq from n.

(** A server that announces [total] users and holds on each page the one
    user whose mid is the page number, except that page 3 is delivered
    without a list and page 4 fails. *)
Definition flaky_server (total : Z) (ps pn : Z)
  : completion JsError FansResponse :=
  if pn =? 4 then Throw {| err_message := msg_timeout; statusCode := None |}
  else Normal {| fans_list :=
                   if pn =? 3 then None
                   else Some [{| mid := pn; uname := "u"; vipStatus := 0 |}];
                 fans_total := total |}.

End LoaderMoreDefs.

(** * components/ReactForceGraph: the incremental graph *)

Module ReactForceGraph.

(** A node as the loader creates it, [{ id, name, face }]. The optional
    fields [neighbors], [links], [x] and [y] are written by [addLinksToGraph]
    and by the layout; the functions below read [id] only. *)
Record GraphNode := { id : Z; name : string; face : string }.

(** [source: number | GraphNode]: the loader writes a number, the layout
    replaces it by the node object. *)
Inductive Endpoint :=
| Num (n : Z)
| Obj (node : GraphNode).

(** [typeof e === "object" ? e.id : e] *)
Definition endpoint_id (e : Endpoint) : Z :=
  match e with
  | Num n => n
  | Obj node => id node
  end.

Record GraphLink := { source : Endpoint; target : Endpoint }.

Record GraphData := { nodes : list GraphNode; links : list GraphLink }.

Record Stats := { nodeCount : nat; linkCount : nat }.

(** The state updater of [addNodesToGraph(newNodes)], applied to the
    previous graph data: the next graph data, and the argument of [setStats]
    when it is called. *)
Definition addNodesToGraph (newNodes : list GraphNode) (prev : GraphData)
  : GraphData * option Stats :=
  let existingIds : gset Z := list_to_set (id <$> nodes prev) in
  let uniqueNewNodes :=
    List.filter (λ n, negb (bool_decide (id n ∈ existingIds))) newNodes in
  if (length uniqueNewNodes =? 0)%nat then (prev, None)
  else
    let updatedNodes := nodes prev ++ uniqueNewNodes in
    ({| nodes := updatedNodes; links := links prev |},
     Some {| nodeCount := length updatedNodes;
             linkCount := length (links prev) |}).

(** The two messages of [handleRemoveIsolatedNodes]: [message.info] that
    there is no isolated node, [message.success] with the number removed. *)
Inductive Notice :=
| NoIsolatedNodes
| RemovedIsolatedNodes (removedCount : nat).

(** [connectedNodeIds]: both ends of every link. *)
Definition connectedNodeIds (ls : list GraphLink) : gset Z :=
  foldl (λ s link,
           {[ endpoint_id (target link) ]}
           ∪ ({[ endpoint_id (source link) ]} ∪ s))
        ∅ ls.

(** [handleRemoveIsolatedNodes()] on the current graph data: the graph data
    and the statistics after it (unchanged when nothing is removed), and the
    message shown. *)
Definition handleRemoveIsolatedNodes (graphData : GraphData) (stats : Stats)
  : GraphData * Stats * Notice :=
  let connected := connectedNodeIds (links graphData) in
  let filteredNodes :=
    List.filter (λ node, bool_decide (id node ∈ connected)) (nodes graphData) in
  let removedCount := (length (nodes graphData) - length filteredNodes)%nat in
  if (removedCount =? 0)%nat then (graphData, stats, NoIsolatedNodes)
  else
    ({| nodes := filteredNodes; links := links graphData |},
     {| nodeCount := length filteredNodes;
        linkCount := length (links graphData) |},
     RemovedIsolatedNodes removedCount).

End ReactForceGraph.

Module ReactForceGraphDefs.

Import ReactForceGraph.

Definition ids (g : GraphData) : list Z := id <$> nodes g.

(** The node is an end of some link. *)
Definition linked (g : GraphData) (n : GraphNode) : Prop :=
  ∃ l, l ∈ links g
       ∧ (endpoint_id (source l) = id n ∨ endpoint_id (target l) = id n).

Definition node (i : Z) : GraphNode := {| id := i; name := "u"; face := "f" |}.

(** Nodes 1, 2 and 3; one link from 1 to 2, whose target the layout has
    already replaced by the node. *)
Definition sample_graph : GraphData :=
  {| nodes := [node 1; node 2; node 3];
     links := [{| source := Num 1; target := Obj (node 2) |}] |}.

End ReactForceGraphDefs.

(** * Properties *)

(** ** Decimal text of integers *)

Module JsFacts.

Import Js JsDefs.

Lemma all_digits_NilEmpty (d : Decimal.uint) :
  all_digits (NilEmpty.string_of_uint d) = true.
Proof. induction d; simpl; auto. Qed.

Lemma all_digits_NilZero (d : Decimal.uint) :
  all_digits (NilZero.string_of_uint d) = true
  ∧ NilZero.string_of_uint d ≠ EmptyString.
Proof.
  destruct d; simpl; split; try done; apply all_digits_NilEmpty.
Qed.

(** The text of an integer: an optional minus sign, then at least one digit. *)
Lemma toString_shape (z : Z) :
  ∃ s, all_digits s = true ∧ s ≠ EmptyString
       ∧ (toString z = s ∨ toString z = String "-" s).
Proof.
  unfold toString. destruct (Z.to_int z) as [d|d]; simpl;
    exists (NilZero.string_of_uint d);
    destruct (all_digits_NilZero d); auto.
Qed.

Lemma to_int_proper (z : Z) :
  Z.to_int z ≠ Decimal.Pos Decimal.Nil ∧ Z.to_int z ≠ Decimal.Neg Decimal.Nil.
Proof.
  destruct z as [|p|p]; simpl; split; try discriminate;
    intros [= H]; by apply (DecimalPos.Unsigned.to_uint_nonnil p).
Qed.

Lemma parseInt_toString (z : Z) : parseInt (toString z) = Some z.
Proof.
  unfold parseInt, toString.
  destruct (to_int_proper z) as [H1 H2].
  rewrite NilZero.isi by assumption. simpl. by rewrite DecimalZ.of_to.
Qed.

Lemma toString_inj (a b : Z) : toString a = toString b → a = b.
Proof.
  intros H. apply (f_equal parseInt) in H.
  rewrite !parseInt_toString in H. by injection H.
Qed.

(** Digits followed by a dash split in one way only. *)
Lemma digits_dash_split (x y r r' : string) :
  all_digits x = true → all_digits y = true →
  x +:+ String "-" r = y +:+ String "-" r' → x = y ∧ r = r'.
Proof.
  revert y. induction x as [|c x IH]; intros [|c' y] Hx Hy; simpl in *.
  - intros [= ->]. done.
  - intros [= <- _]. simpl in Hy. done.
  - intros [= -> _]. simpl in Hx. done.
  - intros [= -> H].
    apply andb_prop in Hx as [_ Hx]. apply andb_prop in Hy as [_ Hy].
    destruct (IH y Hx Hy H) as [-> ->]. done.
Qed.

Lemma digits_head (s : string) :
  all_digits s = true → s ≠ EmptyString → ∃ c s', s = String c s' ∧ is_digit c = true.
Proof.
  destruct s as [|c s']; simpl; [done|].
  intros H _. apply andb_prop in H as [H _]. eauto.
Qed.

(** The key [`${a}-${b}`] determines [a] and [b]. *)
Lemma toString_dash_inj (a b c d : Z) :
  toString a +:+ String "-" (toString b) = toString c +:+ String "-" (toString d) →
  a = c ∧ b = d.
Proof.
  destruct (toString_shape a) as (x & Hx & Hxn & Ha).
  destruct (toString_shape c) as (y & Hy & Hyn & Hc).
  intros H.
  assert (toString a = toString c ∧ toString b = toString d) as [H1 H2].
  { destruct Ha as [Ha|Ha], Hc as [Hc|Hc]; rewrite Ha, Hc in H |- *.
    - apply digits_dash_split in H as [-> ->]; done.
    - destruct (digits_head x Hx Hxn) as (cx & x' & -> & Hcx).
      simpl in H. injection H as -> _. done.
    - destruct (digits_head y Hy Hyn) as (cy & y' & -> & Hcy).
      simpl in H. injection H as <- _. done.
    - simpl in H. injection H as H.
      apply digits_dash_split in H as [-> ->]; done. }
  split; by apply toString_inj.
Qed.

Lemma all_digits_num_chars (s : string) :
  all_digits s = true → all_chars is_num_char s = true.
Proof.
  induction s as [|c s IH]; simpl; [done|].
  intros H. apply andb_prop in H as [H1 H2].
  rewrite IH by done. unfold is_num_char. by rewrite H1.
Qed.

Lemma toString_num_chars (z : Z) : all_chars is_num_char (toString z) = true.
Proof.
  destruct (toString_shape z) as (s & Hs & _ & [-> | ->]); simpl;
    by apply all_digits_num_chars.
Qed.

(** A needle whose first character occurs nowhere in [p] cannot start
    inside [p]. *)
Lemma includes_skip (P : ascii → bool) (p s : string) (c0 : ascii) (m : string) :
  P c0 = false → all_chars P p = true →
  includes (p +:+ s) (String c0 m) = includes s (String c0 m).
Proof.
  intros Hc. induction p as [|c p IH]; simpl; [done|].
  intros H. apply andb_prop in H as [H1 H2].
  rewrite IH by done.
  destruct (Ascii.eqb_spec c0 c) as [->|]; [congruence|]. done.
Qed.

End JsFacts.

(** ** Retry classification and backoff *)

Module BiliApiFacts.

Import Js JsDefs JsFacts BiliApi BiliApiDefs.

Lemma http_error_message_plain (st : Z) (txt : string) :
  plain txt → plain ("HTTP 错误: " +:+ toString st +:+ " " +:+ txt).
Proof.
  intros [H1 H2]. split.
  - transitivity (includes (toString st +:+ " " +:+ txt) msg_network);
      [reflexivity|].
    unfold msg_network.
    rewrite (includes_skip is_num_char) by (done || apply toString_num_chars).
    exact H1.
  - transitivity (includes (toString st +:+ " " +:+ txt) msg_timeout);
      [reflexivity|].
    unfold msg_timeout.
    rewrite (includes_skip is_num_char) by (done || apply toString_num_chars).
    exact H2.
Qed.

Lemma retryable_plain (e : JsError) :
  plain (err_message e) →
  retryable e = true ↔
  ∃ sc, statusCode e = Some sc ∧ (sc = 429 ∨ 500 ≤ sc).
Proof.
  intros [H1 H2]. unfold retryable, isRetryableError. rewrite H1, H2. simpl.
  destruct (statusCode e) as [sc|]; simpl.
  - destruct (Z.eqb_spec sc 0), (Z.eqb_spec sc 429), (Z.geb_spec sc 500);
      simpl; split; try done; try (intros _; exists sc; split; [done|lia]);
      intros (? & [= <-] & ?); lia.
  - split; [done|]. by intros (? & ? & _).
Qed.

(** Application code -412 arriving under transport status 412 is rejected
    by the status guard before the body is looked at, and is not retried. *)
Lemma retry_rule_as_stated_fails : ¬ retry_rule_as_stated.
Proof.
  intros H.
  pose (r := {| status := 412; statusText := "Precondition Failed";
                responseJSON := Some {| code := -412; message := "" |} |}).
  destruct (H (onload r) _ eq_refl) as [_ H2].
  assert (Hst : stated_retryable (onload r)).
  { right. right. eexists. split; reflexivity. }
  specialize (H2 Hst). vm_compute in H2. discriminate.
Qed.

(** A server message that happens to contain the timeout phrase makes an
    ordinary application error retryable. *)
Lemma server_message_can_match :
  ∃ e, executeRequest
         (onload {| status := 200; statusText := "OK";
                    responseJSON :=
                      Some {| code := -400; message := "请求超时" |} |})
       = rejected e ∧ retryable e = true.
Proof. eexists. split; reflexivity. Qed.

(** Two rate-limited attempts cost two backoff sleeps, then the call
    succeeds. *)
Lemma limited_twice_succeeds :
  let r := request DEFAULT_RETRY_CONFIG limited_twice (λ _, 0%Q) in
  r.1 = resolved {| code := 0; message := "" |}
  ∧ Forall2 Qeq r.2 [1000%Q; 2000%Q].
Proof.
  split; [reflexivity|]. repeat constructor.
Qed.


(** C1 (amended): when the texts the server supplies (status text, body
    message) contain neither the network-failure nor the timeout phrase, a
    failed call is classified retryable exactly when the transport status is
    429 or at least 500, or the call ended in a network failure or a timeout,
    or the transport status is 2xx and the body carries application code
    -412 (which is mapped to status 429). *)
Theorem retry_classification (ev : XhrEvent) (e : JsError) :
  server_text_plain ev →
  executeRequest ev = rejected e →
  (retryable e = true ↔ code_retryable ev).
Proof.
  intros Hplain Hex. destruct ev as [r| |]; simpl in *.
  - destruct Hplain as [Htxt Hmsg].
    destruct ((status r <? 200) || (status r >=? 300)) eqn:Hst.
    + injection Hex as <-.
      rewrite retryable_plain by (by apply http_error_message_plain). simpl.
      apply orb_prop in Hst.
      split.
      * intros (sc & [= <-] & Hsc). destruct Hsc; auto.
      * intros [H|[H|[H _]]]; [eauto ..|]; lia.
    + apply orb_false_elim in Hst as [Hlo Hhi].
      destruct (responseJSON r) as [d|] eqn:Hd.
      * destruct (Z.eqb_spec (code d) 0) as [|Hc0]; [done|].
        destruct (Z.eqb_spec (code d) (-412)) as [Hc|Hc].
        -- injection Hex as <-. split; [|done].
           intros _. right. right. split; [lia|]. eauto.
        -- injection Hex as <-.
           rewrite retryable_plain; simpl.
           ++ split; [by intros (? & ? & _)|].
              intros [H|[H|[_ (d' & [= <-] & H)]]]; lia.
           ++ destruct (message d) eqn:Hm; simpl; [done|].
              rewrite <- Hm. by apply Hmsg.
      * injection Hex as <-.
        rewrite retryable_plain by done. simpl.
        split; [by intros (? & ? & _)|].
        intros [H|[H|[_ (d' & ? & _)]]]; [lia|lia|done].
  - injection Hex as <-. done.
  - injection Hex as <-. done.
Qed.

Lemma retry_classification_witness :
  let ev := onload {| status := 200; statusText := "OK";
                      responseJSON := Some {| code := -412; message := "" |} |} in
  let e := {| err_message := msg_risk_control; statusCode := Some 429 |} in
  server_text_plain ev ∧ executeRequest ev = rejected e
  ∧ (retryable e = true ↔ code_retryable ev).
Proof.
  intros ev e.
  assert (Hp : server_text_plain ev).
  { split; [done|]. intros d [= <-]. done. }
  split; [exact Hp|]. split; [reflexivity|].
  apply (retry_classification ev e Hp eq_refl).
Defined.





End BiliApiFacts.

(** ** Cache reads *)

Module CacheFacts.

Import CacheManager CacheDefs.

Section Reads.
Context {T : Type}.
Variable JSON_parse : string → option (CacheItem T).
Variable JSON_stringify : CacheItem T → string.

Lemma get_absent (now : Z) (key : string) (st : Storage) :
  getItem (prefix +:+ key) st = None →
  get JSON_parse now key st = (None, st).
Proof. intros H. unfold get, get_body. by rewrite H. Qed.

(** Whenever the [try] block raises, the [catch] block turns it into a
    miss. *)
Lemma get_catches (now : Z) (key : string) (st : Storage) (e : exn) :
  get_body JSON_parse now key st = Throw e →
  get JSON_parse now key st = (None, st).
Proof. intros H. unfold get. by rewrite H. Qed.

(** C10: [get] returns a value for every key, storage and clock (it is a
    total function whose [try] block is closed by [catch]); when nothing is
    stored under the prefixed key, or the stored text does not parse, the
    value is [null] and the storage is left as it was. *)
Theorem get_malformed_is_miss (now : Z) (key : string) (st : Storage) :
  (getItem (prefix +:+ key) st = None
   ∨ ∃ item, getItem (prefix +:+ key) st = Some item
             ∧ JSON_parse item = None) →
  get JSON_parse now key st = (None, st).
Proof.
  intros [H|(item & H & Hp)].
  - by apply get_absent.
  - unfold get, get_body, parse. rewrite H, Hp.
    by destruct (Js.truthy item).
Qed.

(** The read that finds an expired item removes it. *)
Lemma get_expired (now : Z) (key item : string) (st : Storage)
    (c : CacheItem T) :
  getItem (prefix +:+ key) st = Some item →
  item ≠ EmptyString →
  JSON_parse item = Some c →
  expiry c < now →
  get JSON_parse now key st = (None, removeItem (prefix +:+ key) st).
Proof.
  intros Hget Hne Hp Hexp. unfold get, get_body, parse. rewrite Hget, Hp.
  destruct item; [done|]. simpl.
  destruct (Z.gtb_spec now (expiry c)); [done|lia].
Qed.

Lemma getItem_removeItem (k : string) (st : Storage) :
  getItem k (removeItem k st) = None.
Proof. unfold getItem, removeItem. simpl. apply lookup_delete_eq. Qed.

(** C4: once the clock is strictly past the expiry of the item stored
    under a key, [get] returns [null] and removes the stored text; the same
    key then reads as absent at any later (or earlier) time. *)
Theorem get_expired_evicts (now now' : Z) (key item : string) (st : Storage)
    (c : CacheItem T) :
  getItem (prefix +:+ key) st = Some item →
  item ≠ EmptyString →
  JSON_parse item = Some c →
  expiry c < now →
  get JSON_parse now key st = (None, removeItem (prefix +:+ key) st)
  ∧ getItem (prefix +:+ key) (get JSON_parse now key st).2 = None
  ∧ get JSON_parse now' key (get JSON_parse now key st).2
    = (None, removeItem (prefix +:+ key) st).
Proof.
  intros Hget Hne Hp Hexp.
  rewrite (get_expired now key item st c) by assumption. simpl.
  split; [done|]. split.
  - apply getItem_removeItem.
  - apply get_absent, getItem_removeItem.
Qed.

(** An unexpired, well-formed item is returned and left in place. *)
Lemma get_fresh (now : Z) (key item : string) (st : Storage) (c : CacheItem T) :
  getItem (prefix +:+ key) st = Some item →
  item ≠ EmptyString →
  JSON_parse item = Some c →
  now ≤ expiry c →
  get JSON_parse now key st = (Some (data c), st).
Proof.
  intros Hget Hne Hp Hexp. unfold get, get_body, parse. rewrite Hget, Hp.
  destruct item; [done|]. simpl.
  destruct (Z.gtb_spec now (expiry c)); [lia|done].
Qed.

(** A successful [set] is read back until its time to live has elapsed, and
    is gone afterwards. *)
Lemma set_then_get (config : CacheConfig) (t0 now : Z) (key : string) (v : T)
    (st : Storage) :
  (∀ c, JSON_parse (JSON_stringify c) = Some c) →
  (∀ c, JSON_stringify c ≠ EmptyString) →
  (storage_size (<[prefix +:+ key :=
      JSON_stringify {| data := v;
                        expiry := t0 + expiryDays config * 24 * 60 * 60 * 1000 |}]>
      (items st)) ≤ quota st)%nat →
  let st' := set JSON_stringify config t0 key v st in
  (now ≤ t0 + expiryDays config * 24 * 60 * 60 * 1000 →
     get JSON_parse now key st' = (Some v, st'))
  ∧ (t0 + expiryDays config * 24 * 60 * 60 * 1000 < now →
     (get JSON_parse now key st').1 = None
     ∧ getItem (prefix +:+ key) (get JSON_parse now key st').2 = None).
Proof.
  intros Hrt Hne Hq st'.
  assert (Hst : getItem (prefix +:+ key) st'
                = Some (JSON_stringify
                          {| data := v;
                             expiry := t0 + expiryDays config * 24 * 60 * 60 * 1000 |})).
  { subst st'. unfold set, setItem.
    apply Nat.leb_le in Hq. rewrite Hq. simpl.
    unfold getItem. simpl. apply lookup_insert_eq. }
  split; intros Ht.
  - by rewrite (get_fresh now key _ st' _ Hst (Hne _) (Hrt _)).
  - rewrite (get_expired now key _ st' _ Hst (Hne _) (Hrt _)) by done.
    simpl. split; [done|]. apply getItem_removeItem.
Qed.

End Reads.

Lemma get_malformed_is_miss_witness :
  get sample_parse 0 "bad" sample_storage = (None, sample_storage)
  ∧ get sample_parse 0 "none" sample_storage = (None, sample_storage).
Proof.
  split.
  - apply (get_malformed_is_miss sample_parse 0 "bad" sample_storage).
    right. exists "{oops". split; reflexivity.
  - apply (get_malformed_is_miss sample_parse 0 "none" sample_storage).
    left. reflexivity.
Defined.

Lemma get_expired_evicts_witness :
  get sample_parse 1001 "k" sample_storage
  = (None, removeItem (prefix +:+ "k") sample_storage)
  ∧ get sample_parse 500 "k" (get sample_parse 1001 "k" sample_storage).2
    = (None, removeItem (prefix +:+ "k") sample_storage).
Proof.
  destruct (get_expired_evicts sample_parse 1001 500 "k" "stale"
              sample_storage {| data := 7; expiry := 1000 |})
    as (H1 & _ & H3); [reflexivity | discriminate | reflexivity | simpl; lia |].
  split; [exact H1 | exact H3].
Defined.

End CacheFacts.

(** ** Request deduplication *)

Module DedupFacts.

Import JsDefs JsFacts BiliApi DedupDefs.

Lemma pendingKey_inj (v v' : Z) : pendingKey v = pendingKey v' → v = v'.
Proof.
  unfold pendingKey. intros H. simpl in H. injection H as H.
  by apply toString_inj.
Qed.

Section Dedup.
Variable JSON_parse :
  string → option (CacheManager.CacheItem CommonFollowingsResponse).
Variable JSON_stringify :
  CacheManager.CacheItem CommonFollowingsResponse → string.

Local Abbreviation call := (getCommonFollowings JSON_parse).
Local Abbreviation settle' := (settle JSON_stringify).
Local Abbreviation step' := (step JSON_parse JSON_stringify).
Local Abbreviation run' := (run JSON_parse JSON_stringify).

(** The three ways a call can go. *)
Lemma call_cases (v : Z) (useCache : bool) (now : Z) (w : World) :
  ((∃ r, (call v useCache now w).1 = CacheHit r)
   ∧ same_core w (call v useCache now w).2)
  ∨ (∃ p, pendingRequests w !! pendingKey v = Some p
          ∧ (call v useCache now w).1 = Shared p
          ∧ same_core w (call v useCache now w).2)
  ∨ (pendingRequests w !! pendingKey v = None
     ∧ (call v useCache now w).1 = Shared (next w)
     ∧ pendingRequests (call v useCache now w).2
       = <[pendingKey v := next w]> (pendingRequests w)
     ∧ promises (call v useCache now w).2
       = <[next w := InFlight v]> (promises w)
     ∧ issued (call v useCache now w).2 = issued w ++ [v]
     ∧ next (call v useCache now w).2 = S (next w)).
Proof.
  unfold getCommonFollowings, same_core.
  destruct (if useCache then _ else _) as [[r|] st].
  - left. simpl. repeat split; eauto.
  - destruct (pendingRequests w !! pendingKey v) as [p|] eqn:Hp; simpl.
    + right. left. exists p. repeat split; auto.
    + right. right. repeat split; auto.
Qed.

Lemma same_core_consistent (w w' : World) :
  same_core w w' → consistent w → consistent w'.
Proof.
  intros (H1 & H2 & H3 & H4) [A B C].
  split; unfold in_flight in *; rewrite ?H1, ?H2, ?H4; auto.
Qed.

Lemma call_consistent (v : Z) (useCache : bool) (now : Z) (w : World) :
  consistent w → consistent (call v useCache now w).2.
Proof.
  intros Hc.
  destruct (call_cases v useCache now w)
    as [[_ Hs]|[(p & _ & _ & Hs)|(Hnone & _ & Hp & Hq & _ & Hn)]];
    [by eapply same_core_consistent .. |].
  destruct Hc as [A B C].
  split; unfold in_flight in *; rewrite ?Hp, ?Hq, ?Hn.
  - intros k p. destruct (decide (k = pendingKey v)) as [->|Hk].
    + rewrite lookup_insert_eq. intros [= <-]. exists v.
      by rewrite lookup_insert_eq.
    + rewrite lookup_insert_ne by done. intros Hkp.
      destruct (A k p Hkp) as (v' & -> & Hv'). exists v'. split; [done|].
      apply C in Hv' as Hlt. rewrite lookup_insert_ne by lia. done.
  - intros p v0. destruct (decide (p = next w)) as [->|Hne].
    + rewrite lookup_insert_eq. intros [= <-]. by rewrite lookup_insert_eq.
    + rewrite lookup_insert_ne by done. intros Hv0.
      apply B in Hv0 as Hpend.
      rewrite lookup_insert_ne; [done|].
      intros Heq. rewrite Heq in Hnone. congruence.
  - intros p s. destruct (decide (p = next w)) as [->|Hne]; [lia|].
    rewrite lookup_insert_ne by done. intros Hs. apply C in Hs. lia.
Qed.

(** What settling an unsettled promise does to the module state. *)
Lemma settle_in_flight (p : nat) (v : Z)
    (o : settled CommonFollowingsResponse) (now : Z) (w : World) :
  in_flight w p v →
  pendingRequests (settle' p o now w) = delete (pendingKey v) (pendingRequests w)
  ∧ promises (settle' p o now w)
    = <[p := match o with
             | resolved r => Fulfilled {| response := r; fromCache := false |}
             | rejected e => Rejected e
             end]> (promises w)
  ∧ issued (settle' p o now w) = issued w
  ∧ next (settle' p o now w) = next w.
Proof.
  unfold in_flight, settle. intros ->. by destruct o.
Qed.

Lemma settle_not_in_flight (p : nat) (o : settled CommonFollowingsResponse)
    (now : Z) (w : World) :
  (∀ v, ¬ in_flight w p v) → settle' p o now w = w.
Proof.
  unfold in_flight, settle. intros H.
  destruct (promises w !! p) as [[v| |]|] eqn:Hp; try done.
  by destruct (H v).
Qed.

Lemma settle_consistent (p : nat) (o : settled CommonFollowingsResponse)
    (now : Z) (w : World) :
  consistent w → consistent (settle' p o now w).
Proof.
  intros Hc.
  destruct (promises w !! p) as [[v| |]|] eqn:Hp;
    try (rewrite settle_not_in_flight; [done|];
         unfold in_flight; intros ?; congruence).
  destruct (settle_in_flight p v o now w Hp) as (H1 & H2 & _ & H4).
  destruct Hc as [A B C].
  split; unfold in_flight in *; rewrite ?H1, ?H2, ?H4.
  - intros k q Hk.
    apply lookup_delete_Some in Hk as [Hne Hk].
    destruct (A k q Hk) as (v' & -> & Hv'). exists v'. split; [done|].
    destruct (decide (q = p)) as [->|Hqp].
    + rewrite Hp in Hv'. injection Hv' as ->. done.
    + by rewrite lookup_insert_ne.
  - intros q v0. destruct (decide (q = p)) as [->|Hqp].
    + rewrite lookup_insert_eq. by destruct o.
    + rewrite lookup_insert_ne by done. intros Hq.
      apply B in Hq as Hpend. apply B in Hp as Hpend'.
      rewrite lookup_delete_ne; [done|].
      intros Heq. rewrite Heq in Hpend'. congruence.
  - intros q s. destruct (decide (q = p)) as [->|Hqp].
    + intros _. by apply (C p _ Hp).
    + rewrite lookup_insert_ne by done. apply C.
Qed.

Lemma init_consistent (st : Storage) : consistent (init st).
Proof. split; unfold in_flight; simpl; intros *; by rewrite lookup_empty. Qed.

Lemma step_consistent (w : World) (ev : Event) :
  consistent w → consistent (step' w ev).
Proof.
  destruct ev; simpl; [apply call_consistent | apply settle_consistent].
Qed.

Lemma run_consistent (evs : list Event) (w : World) :
  consistent w → consistent (run' w evs).
Proof.
  revert w. induction evs as [|ev evs IH]; intros w Hw; simpl; [done|].
  apply IH. by apply step_consistent.
Qed.

Lemma requests_for_same (v : Z) (w w' : World) :
  issued w' = issued w → requests_for v w' = requests_for v w.
Proof. unfold requests_for. by intros ->. Qed.

Lemma requests_for_snoc (v v' : Z) (w w' : World) :
  issued w' = issued w ++ [v'] →
  requests_for v w'
  = (requests_for v w + if decide (v' = v) then 1 else 0)%nat.
Proof.
  unfold requests_for. intros ->. rewrite count_occ_app. simpl.
  destruct (Z.eq_dec v' v), (decide (v' = v)); done.
Qed.

(** When a call hands out [Shared p], promise [p] is in flight for that
    identifier afterwards. *)
Lemma call_shared_in_flight (v : Z) (useCache : bool) (now : Z) (w : World)
    (p : nat) :
  consistent w →
  (call v useCache now w).1 = Shared p →
  in_flight (call v useCache now w).2 p v.
Proof.
  intros [A B C] Hh. unfold in_flight.
  destruct (call_cases v useCache now w)
    as [[[r Hr] _]|[(q & Hq & Hs & (_ & H2 & _))|(_ & Hs & _ & Hq & _)]].
  - congruence.
  - rewrite Hs in Hh. injection Hh as ->. rewrite H2.
    destruct (A _ _ Hq) as (v' & Hk & Hv'). apply pendingKey_inj in Hk as <-.
    exact Hv'.
  - rewrite Hs in Hh. injection Hh as <-. rewrite Hq.
    apply lookup_insert_eq.
Qed.

(** While [p] is in flight for [v], a call for [v] hits the cache or shares
    [p], and issues nothing. *)
Lemma call_while_in_flight (v : Z) (useCache : bool) (now : Z) (w : World)
    (p : nat) :
  consistent w → in_flight w p v →
  ((∃ r, (call v useCache now w).1 = CacheHit r)
   ∨ (call v useCache now w).1 = Shared p)
  ∧ same_core w (call v useCache now w).2.
Proof.
  intros [A B C] Hp. apply B in Hp.
  destruct (call_cases v useCache now w)
    as [[Hr Hs]|[(q & Hq & Hh & Hs)|(Hnone & _)]].
  - auto.
  - split; [|done]. right. congruence.
  - congruence.
Qed.

(** Any step other than the settling of [p] leaves [p] in flight and issues
    no request for its identifier. *)
Lemma step_keeps_in_flight (w : World) (ev : Event) (p : nat) (v : Z) :
  consistent w → in_flight w p v →
  (∀ o t, ev ≠ Settle p o t) →
  in_flight (step' w ev) p v
  ∧ requests_for v (step' w ev) = requests_for v w.
Proof.
  intros Hc Hp Hev. destruct ev as [v' c t | q o t]; simpl.
  - destruct (call_cases v' c t w)
      as [[_ Hs]|[(q & _ & _ & Hs)|(Hnone & _ & _ & Hq & Hi & _)]].
    + destruct Hs as (_ & H2 & H3 & _). unfold in_flight. rewrite H2.
      split; [done|]. by apply requests_for_same.
    + destruct Hs as (_ & H2 & H3 & _). unfold in_flight. rewrite H2.
      split; [done|]. by apply requests_for_same.
    + destruct Hc as [A B C]. unfold in_flight. rewrite Hq.
      apply C in Hp as Hlt. rewrite lookup_insert_ne by lia.
      split; [done|].
      rewrite (requests_for_snoc v v' w) by done.
      destruct (decide (v' = v)) as [->|]; [|lia].
      apply B in Hp. congruence.
  - assert (q ≠ p) as Hqp by (intros ->; by eapply Hev).
    destruct (promises w !! q) as [[v''| |]|] eqn:Hq;
      try (rewrite settle_not_in_flight; [done|];
           unfold in_flight; intros ?; congruence).
    destruct (settle_in_flight q v'' o t w Hq)
      as (_ & H2 & H3 & _).
    unfold in_flight. rewrite H2, lookup_insert_ne by done.
    split; [done|]. by apply requests_for_same.
Qed.

Lemma run_keeps_in_flight (evs : list Event) (w : World) (p : nat) (v : Z) :
  consistent w → in_flight w p v →
  Forall (λ ev, ∀ o t, ev ≠ Settle p o t) evs →
  in_flight (run' w evs) p v
  ∧ requests_for v (run' w evs) = requests_for v w.
Proof.
  revert w. induction evs as [|ev evs IH]; intros w Hc Hp Hall; simpl.
  - done.
  - apply Forall_cons in Hall as [Hev Hall].
    destruct (step_keeps_in_flight w ev p v Hc Hp Hev) as [Hp' Hn].
    destruct (IH (step' w ev)) as [Hp'' Hn'];
      [by apply step_consistent | done | done |].
    split; [done|]. congruence.
Qed.

(** A call that finds nothing pending and does not hit the cache issues one
    request under a promise that did not exist before. *)
Lemma call_when_idle (v : Z) (useCache : bool) (now : Z) (w : World) :
  consistent w →
  pendingRequests w !! pendingKey v = None →
  (∀ r, (call v useCache now w).1 ≠ CacheHit r) →
  (call v useCache now w).1 = Shared (next w)
  ∧ promises w !! next w = None
  ∧ in_flight (call v useCache now w).2 (next w) v
  ∧ requests_for v (call v useCache now w).2 = S (requests_for v w).
Proof.
  intros [A B C] Hnone Hmiss.
  destruct (call_cases v useCache now w)
    as [[[r Hr] _]|[(q & Hq & _)|(_ & Hh & _ & Hq & Hi & _)]].
  - by destruct (Hmiss r).
  - congruence.
  - split; [done|]. split.
    { destruct (promises w !! next w) eqn:Hn; [|done]. apply C in Hn. lia. }
    split.
    + unfold in_flight. rewrite Hq. apply lookup_insert_eq.
    + rewrite (requests_for_snoc v v w) by done.
      destruct (decide (v = v)); [lia|done].
Qed.

(** C3: in every state the module can reach from load,
    (1) at most one unsettled request exists per identifier, and it is the
        one the pending map holds under the identifier's key;
    (2) if a call for an identifier returned the shared promise [p], then
        after any further steps that do not settle [p], a second call for
        the same identifier that does not hit the cache returns the same
        promise (so both callers see the same outcome) and no further
        request for the identifier has been issued; when nothing was pending
        at the first call, exactly one request was issued by it;
    (3) when the request of [p] settles, successfully or not, the pending
        entry is removed and [p] settles accordingly; a later call for the
        identifier that does not hit the cache issues a fresh request under
        a new promise. *)
Theorem in_flight_requests_are_shared (st0 : Storage) (evs : list Event) :
  let w := run' (init st0) evs in
  (∀ p1 p2 v, in_flight w p1 v → in_flight w p2 v → p1 = p2)
  ∧ (∀ p v, in_flight w p v ↔ pendingRequests w !! pendingKey v = Some p)
  ∧ (∀ v c1 t1 p evs2 c2 t2,
       let w1 := (call v c1 t1 w).2 in
       let w2 := run' w1 evs2 in
       (call v c1 t1 w).1 = Shared p →
       Forall (λ ev, ∀ o t, ev ≠ Settle p o t) evs2 →
       (∀ r, (call v c2 t2 w2).1 ≠ CacheHit r) →
       (call v c2 t2 w2).1 = Shared p
       ∧ (∀ w', outcome w' (call v c2 t2 w2).1
                = outcome w' (call v c1 t1 w).1)
       ∧ requests_for v (call v c2 t2 w2).2 = requests_for v w1
       ∧ (pendingRequests w !! pendingKey v = None →
          requests_for v w1 = S (requests_for v w)))
  ∧ (∀ p v o t,
       let w' := settle' p o t w in
       in_flight w p v →
       pendingRequests w' !! pendingKey v = None
       ∧ outcome w' (Shared p) = Some (result_of o)
       ∧ ∀ c t', (∀ r, (call v c t' w').1 ≠ CacheHit r) →
           ∃ p', p' ≠ p
                 ∧ (call v c t' w').1 = Shared p'
                 ∧ in_flight (call v c t' w').2 p' v
                 ∧ requests_for v (call v c t' w').2
                   = S (requests_for v w')).
Proof.
  intros w.
  assert (Hc : consistent w) by apply run_consistent, init_consistent.
  split; [|split; [|split]].
  - intros p1 p2 v H1 H2.
    apply (in_flight_pending w Hc) in H1, H2. congruence.
  - intros p v. split; [apply (in_flight_pending w Hc)|].
    intros Hp. destruct (pending_in_flight w Hc _ _ Hp) as (v' & Hk & Hv').
    apply pendingKey_inj in Hk as <-. done.
  - intros v c1 t1 p evs2 c2 t2 w1 w2 Hh Hall Hmiss.
    assert (Hc1 : consistent w1) by by apply call_consistent.
    assert (Hp1 : in_flight w1 p v) by by apply call_shared_in_flight.
    destruct (run_keeps_in_flight evs2 w1 p v Hc1 Hp1 Hall) as [Hp2 Hn2].
    assert (Hc2 : consistent w2) by by apply run_consistent.
    destruct (call_while_in_flight v c2 t2 w2 p Hc2 Hp2)
      as [[[r Hr]|Hsh] (_ & _ & Hi & _)]; [by destruct (Hmiss r)|].
    split; [done|]. split; [intros w'; by rewrite Hsh, Hh|]. split.
    + rewrite (requests_for_same v w2 _ Hi). exact Hn2.
    + intros Hnone.
      apply (call_when_idle v c1 t1 w Hc Hnone).
      intros r Hr. congruence.
  - intros p v o t w' Hp.
    assert (Hc' : consistent w') by by apply settle_consistent.
    destruct (settle_in_flight p v o t w Hp) as (H1 & H2 & H3 & H4).
    assert (Hnone : pendingRequests w' !! pendingKey v = None).
    { subst w'. rewrite H1. apply lookup_delete_eq. }
    split; [done|]. split.
    { subst w'. simpl. rewrite H2, lookup_insert_eq. by destruct o. }
    intros c t' Hmiss.
    destruct (call_when_idle v c t' w' Hc' Hnone Hmiss) as (Hh & _ & Hfl & Hn).
    exists (next w'). split; [|done].
    subst w'. rewrite H4.
    apply (promises_below_next w Hc) in Hp. lia.
Qed.

End Dedup.

Lemma in_flight_requests_are_shared_witness :
  let w := init empty_storage in
  let w1 := (getCommonFollowings no_parse 7 true 0 w).2 in
  let w2 := run no_parse some_text w1 [Call 8 true 1] in
  (getCommonFollowings no_parse 7 true 2 w2).1 = Shared 0%nat
  ∧ requests_for 7 (getCommonFollowings no_parse 7 true 2 w2).2 = 1%nat.
Proof.
  intros w w1 w2.
  destruct (in_flight_requests_are_shared no_parse some_text empty_storage [])
    as (_ & _ & H & _).
  destruct (H 7 true 0 0%nat [Call 8 true 1] true 2) as (H1 & _ & H2 & H3).
  - reflexivity.
  - constructor; [|constructor]. intros o t. discriminate.
  - intros r. discriminate.
  - split; [exact H1|]. exact (eq_trans H2 (H3 eq_refl)).
Defined.

End DedupFacts.

(** ** Paged loading of the follow list *)

Module PagingFacts.

Import BiliApi UseGraphData PagingDefs.

Section Paging.
Variable getFollowingsList : Z → Z → completion JsError FansResponse.

(** With 125 reported on page 1, pages 2 and 3 are requested, in that order,
    and the lists are appended in page order. *)
Lemma three_pages (l1 l2 l3 : list FansItem) (t2 t3 : Z) :
  getFollowingsList 50 1 = Normal {| fans_list := Some l1; fans_total := 125 |} →
  getFollowingsList 50 2 = Normal {| fans_list := Some l2; fans_total := t2 |} →
  getFollowingsList 50 3 = Normal {| fans_list := Some l3; fans_total := t3 |} →
  loadAllData_followings getFollowingsList
  = ([FetchPage 50 1; FetchPage 50 2; FetchPage 50 3],
     Normal (l1 ++ l2 ++ l3)).
Proof.
  intros H1 H2 H3. unfold loadAllData_followings, pageSize.
  rewrite H1. simpl.
  change (Z.of_nat 2) with 2. change (Z.of_nat 3) with 3.
  unfold pageSize. rewrite H2. simpl. rewrite H3. simpl.
  by rewrite <- app_assoc.
Qed.

End Paging.

(** C5: when the first page reports a total of 125 and pages 1 to 3 hold
    the 125 items 50 per page, the paged part of [loadAllData] issues exactly
    the three requests for pages 1, 2 and 3, in this order (3 being
    ceil(125 / 50)), and returns the 125 items in their order. *)
Theorem pagination_125
    (getFollowingsList : Z → Z → completion JsError FansResponse)
    (items : list FansItem) :
  length items = 125%nat →
  (∀ pn, 1 ≤ pn ≤ 3 →
     getFollowingsList 50 pn
     = Normal {| fans_list :=
                   Some (take 50 (drop (Z.to_nat (50 * (pn - 1))) items));
                 fans_total := 125 |}) →
  ceil_div 125 pageSize = 3
  ∧ loadAllData_followings getFollowingsList
    = ([FetchPage 50 1; FetchPage 50 2; FetchPage 50 3], Normal items).
Proof.
  intros Hlen Hpages. split; [reflexivity|].
  rewrite (three_pages getFollowingsList
             (take 50 items) (take 50 (drop 50 items))
             (take 50 (drop 100 items)) 125 125);
    try (rewrite Hpages by lia; reflexivity).
  do 2 f_equal.
  rewrite (take_ge (drop 100 items)) by (rewrite length_drop; lia).
  rewrite <- (take_drop 50 items) at 4.
  f_equal.
  rewrite <- (take_drop 50 (drop 50 items)) at 2.
  by rewrite drop_drop.
Qed.

Lemma pagination_125_witness :
  length sample_items = 125%nat
  ∧ loadAllData_followings (paged_server sample_items)
    = ([FetchPage 50 1; FetchPage 50 2; FetchPage 50 3], Normal sample_items).
Proof.
  split; [reflexivity|].
  apply (pagination_125 (paged_server sample_items) sample_items).
  - reflexivity.
  - intros pn Hpn. reflexivity.
Defined.

End PagingFacts.

(** ** Batched aggregation of common followings *)

Module BatchFacts.

Import BiliApi UseGraphData BatchDefs.

Section Batch.
Variable getCommonFollowings : Z → completion JsError CommonFollowingsResult.
Variable completion_order : list Z → list Z.

Local Abbreviation load_one' := (load_one getCommonFollowings).
Local Abbreviation batch_loop' :=
  (batch_loop getCommonFollowings completion_order).



Hypothesis completion_order_perm : ∀ b, completion_order b ≡ₚ b.



End Batch.


(** *** Pacing *)

Section Pacing.
Variable getCommonFollowings : Z → completion JsError CommonFollowingsResult.
Variable completion_order : list Z → list Z.







End Pacing.


(** The sequential loader shortens the sleep after a cache hit to 10 ms; it
    does not skip it. *)
Lemma sequential_cache_hit_sleeps :
  (SequentialLoader.load_relations all_cached [7] ∅ []).2
  = [FetchCommon 7; Sleep 10].
Proof. reflexivity. Qed.


End BatchFacts.

(** ** Graph construction *)

Module GraphFacts.

Import Js JsDefs JsFacts GraphTransform GraphDefs.

(** When the hook yields graph data, it is the graph built from the
    loaded, non-empty follow list. *)
Lemma useGraphTransform_some (followingsList : list FansItem)
    (cmap : gmap Z (list Z)) (swap dataLoaded : bool) (g : GraphData) :
  useGraphTransform followingsList cmap swap dataLoaded = Some g →
  g = buildGraph followingsList cmap swap
  ∧ dataLoaded = true ∧ followingsList ≠ [].
Proof.
  unfold useGraphTransform.
  destruct dataLoaded, followingsList; simpl; try done.
  intros [= <-]. done.
Qed.

(** *** Folding with an invariant *)

Lemma foldl_invariant {A B} (P : A → Prop) (Q : B → Prop) (f : A → B → A)
    (l : list B) (a : A) :
  (∀ a b, P a → Q b → P (f a b)) →
  P a → Forall Q l → P (foldl f a l).
Proof.
  intros Hstep. revert a. induction l as [|b l IH]; intros a Ha Hl; simpl.
  - done.
  - apply Forall_cons in Hl as [Hb Hl]. apply IH; auto.
Qed.

(** *** Nodes *)

Lemma add_user_ok (m : list (string * GraphNode)) (user : FansItem) :
  nodes_ok m → nodes_ok (add_user m user).
Proof.
  intros [Hnd Hk]. unfold add_user, has_key.
  destruct (bool_decide_reflect (toString (mid user) ∈ m.*1)) as [Hin|Hin].
  - done.
  - split.
    + rewrite fmap_app. simpl. apply NoDup_app. split; [done|]. split.
      * intros x Hx Hx'. apply list_elem_of_singleton in Hx' as ->. done.
      * apply NoDup_singleton.
    + intros k n Hkn. apply elem_of_app in Hkn as [Hkn|Hkn]; [by apply Hk|].
      apply list_elem_of_singleton in Hkn. injection Hkn as -> ->. simpl.
      split; [done|]. eauto.
Qed.

Lemma uniqueNodesMap_ok (followingsList : list FansItem) :
  nodes_ok (uniqueNodesMap followingsList).
Proof.
  unfold uniqueNodesMap.
  apply (foldl_invariant nodes_ok (λ _, True)).
  - intros m u Hm _. by apply add_user_ok.
  - split; [constructor|]. intros k n H. by apply elem_of_nil in H.
  - by apply Forall_forall.
Qed.

Lemma ids_of_values (m : list (string * GraphNode)) :
  (∀ k n, (k, n) ∈ m → k = id n) → id <$> m.*2 = m.*1.
Proof.
  induction m as [|[k n] m IH]; intros H; [done|].
  rewrite !fmap_cons. f_equal.
  - symmetry. apply H. apply elem_of_cons. by left.
  - apply IH. intros k' n' Hin. apply H. apply elem_of_cons. by right.
Qed.

(** Ids of [allNodes]: pairwise distinct, each the text of an integer. *)
Lemma allNodes_ids (followingsList : list FansItem) :
  let allNodes := (uniqueNodesMap followingsList).*2 in
  NoDup (id <$> allNodes)
  ∧ ∀ n, n ∈ allNodes → ∃ z, id n = toString z.
Proof.
  intros allNodes. subst allNodes.
  destruct (uniqueNodesMap_ok followingsList) as [Hnd Hk].
  split.
  - rewrite ids_of_values; [done|]. intros k n H. by apply Hk.
  - intros n Hn. apply list_elem_of_fmap in Hn as ([k n'] & -> & Hin).
    by apply (Hk k n').
Qed.

(** A mid in [followingMidSet] is the mid of a node in [allNodes]. *)
Lemma followingMidSet_id (allNodes : list GraphNode) (z : Z) :
  (∀ n, n ∈ allNodes → ∃ z, id n = toString z) →
  z ∈ followingMidSet allNodes →
  toString z ∈ id <$> allNodes.
Proof.
  intros Hids Hz. unfold followingMidSet in Hz.
  apply elem_of_list_to_set in Hz.
  apply list_elem_of_omap in Hz as (n & Hn & Hp).
  destruct (Hids n Hn) as (z' & Hz').
  rewrite Hz', parseInt_toString in Hp. injection Hp as <-.
  rewrite <- Hz'. by apply list_elem_of_fmap_2.
Qed.

(** *** Edges *)

Lemma add_common_ok (ids : list string) (node : GraphNode) (fset : gset Z)
    (st : list (string * Edge) * gset string) (commonMid : Z) :
  (∃ a, id node = toString a) → id node ∈ ids →
  (∀ z, z ∈ fset → toString z ∈ ids) →
  edges_ok ids st → edges_ok ids (add_common node fset st commonMid).
Proof.
  intros [a Ha] Hnode Hfset (Hnd & Hset & Hk). unfold add_common.
  destruct (bool_decide_reflect (commonMid ∈ fset)) as [Hin|]; [|done].
  destruct (bool_decide_reflect
              (link_key (id node) (toString commonMid) ∈ st.2)) as [|Hnew];
    [done|].
  split; [|split]; simpl.
  - rewrite fmap_app. simpl. apply NoDup_app. split; [done|]. split.
    + intros x Hx Hx'. apply list_elem_of_singleton in Hx' as ->.
      by apply Hnew, Hset.
    + apply NoDup_singleton.
  - intros k. rewrite fmap_app, elem_of_app, elem_of_union, elem_of_singleton.
    simpl. rewrite list_elem_of_singleton, Hset. tauto.
  - intros k e Hke. apply elem_of_app in Hke as [Hke|Hke]; [by apply Hk|].
    apply list_elem_of_singleton in Hke. injection Hke as -> ->. simpl.
    split; [done|]. split; [eauto|]. split; [done|]. by apply Hfset.
Qed.

Lemma add_node_edges_ok (ids : list string) (cmap : gmap Z (list Z))
    (fset : gset Z) (st : list (string * Edge) * gset string)
    (node : GraphNode) :
  (∃ a, id node = toString a) → id node ∈ ids →
  (∀ z, z ∈ fset → toString z ∈ ids) →
  edges_ok ids st → edges_ok ids (add_node_edges cmap fset st node).
Proof.
  intros Ha Hnode Hfset Hst. unfold add_node_edges.
  destruct (parseInt (id node)) as [m|]; [|done].
  destruct (cmap !! m) as [commonMids|]; [|done].
  apply (foldl_invariant (edges_ok ids) (λ _, True)); [|done|by apply Forall_forall].
  intros st' c Hst' _. by apply add_common_ok.
Qed.

Lemma collect_edges_ok (cmap : gmap Z (list Z)) (allNodes : list GraphNode) :
  (∀ n, n ∈ allNodes → ∃ z, id n = toString z) →
  edges_ok (id <$> allNodes) (collect_edges cmap allNodes).
Proof.
  intros Hids. unfold collect_edges.
  apply (foldl_invariant (edges_ok (id <$> allNodes)) (λ n, n ∈ allNodes)).
  - intros st n Hst Hn. apply add_node_edges_ok; auto.
    + by apply list_elem_of_fmap_2.
    + intros z. by apply followingMidSet_id.
  - split; [constructor|]. split.
    + intros k. simpl. rewrite elem_of_nil. set_solver.
    + intros k e H. by apply elem_of_nil in H.
  - by apply Forall_forall.
Qed.

(** Two entries whose keys agree have the same ends. *)
Lemma key_determines_ends (e e' : Edge) :
  (∃ a b, e_source e = toString a ∧ e_target e = toString b) →
  (∃ a b, e_source e' = toString a ∧ e_target e' = toString b) →
  link_key (e_source e) (e_target e) = link_key (e_source e') (e_target e') →
  e_source e = e_source e' ∧ e_target e = e_target e'.
Proof.
  intros (a & b & -> & ->) (a' & b' & -> & ->) H.
  apply toString_dash_inj in H as [-> ->]. done.
Qed.

(** *** Bidirectional tagging *)

Lemma has_key_spec {V} (m : list (string * V)) (k : string) :
  has_key m k = true ↔ k ∈ m.*1.
Proof. unfold has_key. apply bool_decide_eq_true. Qed.

(** Members of the set the first [forEach] builds over a list of entries. *)
Lemma mark_bidirectional_spec (em l : list (string * Edge)) (bs : gset string)
    (k : string) :
  k ∈ foldl (mark_bidirectional em) bs l
  ↔ k ∈ bs
    ∨ ∃ entry, entry ∈ l ∧ reverse_key entry.2 ∈ em.*1
               ∧ (k = entry.1 ∨ k = reverse_key entry.2).
Proof.
  revert bs. induction l as [|entry l IH]; intros bs; simpl.
  - split; [auto|]. intros [H|(entry & H & _)]; [done|].
    by apply elem_of_nil in H.
  - rewrite IH. unfold mark_bidirectional. fold (reverse_key entry.2).
    destruct (has_key em (reverse_key entry.2)) eqn:Hhas.
    + apply has_key_spec in Hhas.
      rewrite !elem_of_union, !elem_of_singleton. split.
      * intros [[->|[->|H]]|(en & Hin & Hrev & Hk)].
        -- right. exists entry. rewrite elem_of_cons. auto.
        -- right. exists entry. rewrite elem_of_cons. auto.
        -- by left.
        -- right. exists en. rewrite elem_of_cons. auto.
      * intros [H|(en & Hin & Hrev & Hk)]; [auto|].
        apply elem_of_cons in Hin as [->|Hin].
        -- left. tauto.
        -- right. eauto.
    + assert (Hno : reverse_key entry.2 ∉ em.*1).
      { intros H. apply has_key_spec in H. congruence. }
      split.
      * intros [H|(en & Hin & Hrev & Hk)]; [by left|].
        right. exists en. rewrite elem_of_cons. auto.
      * intros [H|(en & Hin & Hrev & Hk)]; [by left|].
        apply elem_of_cons in Hin as [->|Hin]; [done|].
        right. eauto.
Qed.

(** An entry of a well-formed [edgeMap] is in [bidirectionalSet] exactly
    when the key of its reverse is a key of [edgeMap]. *)
Lemma bidirectional_iff_reverse_key (ids : list string)
    (st : list (string * Edge) * gset string) (k : string) (e : Edge) :
  edges_ok ids st → (k, e) ∈ st.1 →
  k ∈ bidirectionalSet st.1 ↔ reverse_key e ∈ st.1.*1.
Proof.
  intros (Hnd & Hset & Hk) Hke. unfold bidirectionalSet.
  rewrite mark_bidirectional_spec. split.
  - intros [H|([k' e'] & Hin & Hrev & Hor)]; [done|]. simpl in *.
    destruct (Hk k e Hke) as (-> & Hz & _).
    destruct (Hk k' e' Hin) as (-> & Hz' & _).
    destruct Hor as [Heq|Heq].
    + apply key_determines_ends in Heq as [Hs Ht]; [|done..].
      unfold reverse_key in *. by rewrite Hs, Ht.
    + unfold reverse_key in Heq.
      destruct Hz as (a & b & Ha & Hb). destruct Hz' as (a' & b' & Ha' & Hb').
      rewrite Ha, Hb, Ha', Hb' in Heq.
      apply toString_dash_inj in Heq as [-> ->].
      unfold reverse_key. rewrite Ha, Hb, <- Ha', <- Hb'.
      apply list_elem_of_fmap. by exists (link_key (e_source e') (e_target e'), e').
  - intros Hrev. right. exists (k, e). auto.
Qed.

Lemma make_link_tagged (swap : bool) (bs : gset string) (entry : string * Edge) :
  tagged (make_link swap bs entry) ↔ entry.1 ∈ bs.
Proof.
  unfold tagged, make_link.
  destruct (bool_decide_reflect (entry.1 ∈ bs)), swap; simpl;
    split; intros; done.
Qed.

Lemma make_link_ends (swap : bool) (bs : gset string) (entry : string * Edge) :
  (source (make_link swap bs entry) = e_source entry.2
   ∧ target (make_link swap bs entry) = e_target entry.2)
  ∨ (source (make_link swap bs entry) = e_target entry.2
     ∧ target (make_link swap bs entry) = e_source entry.2).
Proof. unfold make_link. destruct swap; simpl; auto. Qed.

(** Two links made under the same direction flag are reverses of each other
    exactly when their edges are. *)
Lemma make_link_reverse (swap : bool) (bs : gset string)
    (entry entry' : string * Edge) :
  (source (make_link swap bs entry') = target (make_link swap bs entry)
   ∧ target (make_link swap bs entry') = source (make_link swap bs entry))
  ↔ (e_source entry'.2 = e_target entry.2
     ∧ e_target entry'.2 = e_source entry.2).
Proof. unfold make_link. destruct swap; simpl; tauto. Qed.

(** The links of the built graph and the state they were made from. *)
Lemma links_of_buildGraph (followingsList : list FansItem)
    (cmap : gmap Z (list Z)) (swap : bool) :
  let allNodes := (uniqueNodesMap followingsList).*2 in
  let st := collect_edges cmap allNodes in
  edges_ok (id <$> allNodes) st
  ∧ links (buildGraph followingsList cmap swap)
    = make_link swap (bidirectionalSet st.1) <$> st.1.
Proof.
  intros allNodes st. split; [|done].
  apply collect_edges_ok. apply allNodes_ids.
Qed.

(** C8: in the built graph a link is tagged bidirectional if and only if
    the link between the same two nodes in the opposite direction is also
    among the links; and then that opposite link is tagged as well. *)
Theorem bidirectional_iff_reverse_present (followingsList : list FansItem)
    (cmap : gmap Z (list Z)) (swap : bool) (l : GraphLink) :
  let g := buildGraph followingsList cmap swap in
  l ∈ links g →
  (tagged l ↔
   ∃ l', l' ∈ links g ∧ source l' = target l ∧ target l' = source l)
  ∧ (tagged l →
     ∃ l', l' ∈ links g ∧ source l' = target l ∧ target l' = source l
           ∧ tagged l').
Proof.
  intros g Hl. subst g.
  destruct (links_of_buildGraph followingsList cmap swap) as [Hok Hlinks].
  set (st := collect_edges cmap (uniqueNodesMap followingsList).*2) in *.
  rewrite Hlinks in *. clear Hlinks.
  apply list_elem_of_fmap in Hl as ([k e] & -> & Hke).
  assert (Hiff : ∀ k e, (k, e) ∈ st.1 →
    (tagged (make_link swap (bidirectionalSet st.1) (k, e)) ↔
     ∃ k' e', (k', e') ∈ st.1 ∧ e_source e' = e_target e
              ∧ e_target e' = e_source e)).
  { intros k0 e0 Hin. rewrite make_link_tagged. simpl.
    rewrite (bidirectional_iff_reverse_key _ st k0 e0 Hok Hin).
    destruct Hok as (_ & _ & Hk). split.
    - intros Hrev. apply list_elem_of_fmap in Hrev as ([k' e'] & Hkey & Hin').
      simpl in Hkey. exists k', e'. split; [done|].
      destruct (Hk k' e' Hin') as (-> & (a' & b' & Ha' & Hb') & _).
      destruct (Hk k0 e0 Hin) as (_ & (a & b & Ha & Hb) & _).
      unfold reverse_key in Hkey. rewrite Ha, Hb, Ha', Hb' in Hkey.
      apply toString_dash_inj in Hkey as [-> ->]. by rewrite Ha, Hb, Ha', Hb'.
    - intros (k' & e' & Hin' & Hs & Ht).
      destruct (Hk k' e' Hin') as (-> & _).
      apply list_elem_of_fmap. exists (link_key (e_source e') (e_target e'), e').
      split; [|done]. simpl. unfold reverse_key. by rewrite Hs, Ht. }
  assert (Hfirst :
    tagged (make_link swap (bidirectionalSet st.1) (k, e)) ↔
    ∃ l', l' ∈ make_link swap (bidirectionalSet st.1) <$> st.1
          ∧ source l' = target (make_link swap (bidirectionalSet st.1) (k, e))
          ∧ target l' = source (make_link swap (bidirectionalSet st.1) (k, e))).
  { rewrite (Hiff k e Hke). split.
    - intros (k' & e' & Hin' & Hs & Ht).
      exists (make_link swap (bidirectionalSet st.1) (k', e')).
      split; [by apply list_elem_of_fmap_2|].
      by apply (make_link_reverse swap _ (k, e) (k', e')).
    - intros (l' & Hl' & Hst).
      apply list_elem_of_fmap in Hl' as ([k' e'] & -> & Hin').
      apply (make_link_reverse swap _ (k, e) (k', e')) in Hst.
      exists k', e'. by split. }
  split; [exact Hfirst|].
  intros Ht. apply (Hiff k e Hke) in Ht as (k' & e' & Hin' & Hs & Ht).
  exists (make_link swap (bidirectionalSet st.1) (k', e')).
  split; [by apply list_elem_of_fmap_2|].
  split; [by apply (make_link_reverse swap _ (k, e) (k', e'))|].
  split; [by apply (make_link_reverse swap _ (k, e) (k', e'))|].
  apply (Hiff k' e' Hin'). exists k, e. by split.
Qed.

(** *** Degrees *)

Lemma bump_lookup (m : gmap string nat) (x k : string) :
  default 0%nat (bump m x !! k)
  = (default 0%nat (m !! k) + if decide (x = k) then 1 else 0)%nat.
Proof.
  unfold bump. destruct (decide (x = k)) as [->|Hne].
  - rewrite lookup_insert_eq. simpl. done.
  - rewrite lookup_insert_ne by done. lia.
Qed.

Lemma nodeDegree_fold_lookup (ls : list GraphLink) (m : gmap string nat)
    (k : string) :
  default 0%nat
    (foldl (λ m link, bump (bump m (source link)) (target link)) m ls !! k)
  = (default 0%nat (m !! k) + occurrences k (endpoints ls))%nat.
Proof.
  revert m. induction ls as [|l ls IH]; intros m; simpl.
  - unfold occurrences. simpl. lia.
  - rewrite IH, !bump_lookup. unfold occurrences. simpl.
    destruct (decide (source l = k)), (String.string_dec (source l) k);
      try done;
      destruct (decide (target l = k)), (String.string_dec (target l) k);
      try done; lia.
Qed.

(** The degree recorded for an id is the number of link ends at it. *)
Lemma nodeDegree_lookup (ls : list GraphLink) (k : string) :
  default 0%nat (nodeDegree ls !! k) = occurrences k (endpoints ls).
Proof.
  unfold nodeDegree. rewrite nodeDegree_fold_lookup, lookup_empty. done.
Qed.

Lemma connected_fold_spec (ls : list GraphLink) (s : gset string)
    (k : string) :
  k ∈ foldl (λ s link, {[target link]} ∪ ({[source link]} ∪ s)) s ls
  ↔ k ∈ s ∨ k ∈ endpoints ls.
Proof.
  revert s. induction ls as [|l ls IH]; intros s; simpl.
  - rewrite elem_of_nil. tauto.
  - rewrite IH, !elem_of_union, !elem_of_singleton, !elem_of_cons. tauto.
Qed.

Lemma connectedNodeIds_spec (ls : list GraphLink) (k : string) :
  k ∈ connectedNodeIds ls ↔ k ∈ endpoints ls.
Proof.
  unfold connectedNodeIds. rewrite connected_fold_spec, elem_of_empty. tauto.
Qed.

Lemma length_endpoints (ls : list GraphLink) :
  length (endpoints ls) = (2 * length ls)%nat.
Proof. induction ls as [|l ls IH]; simpl; [done|]. rewrite IH. lia. Qed.

Lemma occurrences_absent (k : string) (xs : list string) :
  k ∉ xs → occurrences k xs = 0%nat.
Proof.
  intros H. apply count_occ_not_In. intros Hin. apply H.
  by apply list_elem_of_In.
Qed.

(** *** Counting link ends node by node *)

Lemma sum_list_fmap_plus {A} (f g : A → nat) (l : list A) :
  sum_list ((λ x, f x + g x)%nat <$> l)
  = (sum_list (f <$> l) + sum_list (g <$> l))%nat.
Proof.
  induction l as [|x l IH]; [done|]. rewrite !fmap_cons. simpl.
  rewrite IH. lia.
Qed.

Lemma sum_list_fmap_zero {A} (f : A → nat) (l : list A) :
  (∀ x, x ∈ l → f x = 0%nat) → sum_list (f <$> l) = 0%nat.
Proof.
  induction l as [|x l IH]; intros H; [done|]. rewrite fmap_cons. simpl.
  rewrite H, IH; [done| |].
  - intros y Hy. apply H. apply elem_of_cons. by right.
  - apply elem_of_cons. by left.
Qed.

Lemma sum_list_filter {A} (P : A → Prop) `{∀ x, Decision (P x)}
    (f : A → nat) (l : list A) :
  (∀ x, x ∈ l → ¬ P x → f x = 0%nat) →
  sum_list (f <$> filter P l) = sum_list (f <$> l).
Proof.
  induction l as [|x l IH]; intros Hz; [done|].
  rewrite filter_cons.
  assert (IH' : sum_list (f <$> filter P l) = sum_list (f <$> l)).
  { apply IH. intros y Hy. apply Hz. apply elem_of_cons. by right. }
  destruct (decide (P x)) as [Hp|Hp]; rewrite !fmap_cons; simpl.
  - by rewrite IH'.
  - rewrite IH', (Hz x); [done| |done]. apply elem_of_cons. by left.
Qed.

(** In a duplicate-free list, exactly one position holds a given member. *)
Lemma sum_indicator (x : string) (ks : list string) :
  NoDup ks → x ∈ ks →
  sum_list ((λ k, if String.string_dec x k then 1 else 0)%nat <$> ks) = 1%nat.
Proof.
  induction ks as [|k ks IH]; intros Hnd Hin.
  - by apply elem_of_nil in Hin.
  - apply NoDup_cons in Hnd as [Hk Hnd]. rewrite fmap_cons. simpl.
    destruct (String.string_dec x k) as [->|Hne].
    + rewrite sum_list_fmap_zero; [done|].
      intros y Hy. destruct (String.string_dec k y) as [->|]; done.
    + apply elem_of_cons in Hin as [->|Hin]; [done|]. by rewrite IH.
Qed.

(** Summing, over distinct ids that cover all ends, the number of ends at
    each id counts every end once. *)
Lemma sum_occurrences (ks xs : list string) :
  NoDup ks → (∀ x, x ∈ xs → x ∈ ks) →
  sum_list ((λ k, occurrences k xs) <$> ks) = length xs.
Proof.
  intros Hnd. induction xs as [|x xs IH]; intros Hsub.
  - apply sum_list_fmap_zero. done.
  - transitivity
      (sum_list ((λ k, (if String.string_dec x k then 1 else 0)
                       + occurrences k xs)%nat <$> ks)).
    { f_equal. apply list_fmap_ext. intros _ k _.
      unfold occurrences. simpl. by destruct (String.string_dec x k). }
    rewrite sum_list_fmap_plus, sum_indicator, IH; simpl; try done.
    + intros y Hy. apply Hsub. apply elem_of_cons. by right.
    + apply Hsub. apply elem_of_cons. by left.
Qed.

(** Both ends of every link of the built graph are ids of [allNodes]. *)
Lemma endpoints_are_nodes (followingsList : list FansItem)
    (cmap : gmap Z (list Z)) (swap : bool) (x : string) :
  x ∈ endpoints (links (buildGraph followingsList cmap swap)) →
  x ∈ id <$> (uniqueNodesMap followingsList).*2.
Proof.
  destruct (links_of_buildGraph followingsList cmap swap) as [Hok ->].
  destruct Hok as (_ & _ & Hk).
  intros Hx. unfold endpoints in Hx. apply list_elem_of_In in Hx.
  apply in_flat_map in Hx as (l & Hl & Hx).
  apply list_elem_of_In, list_elem_of_fmap in Hl as ([k e] & -> & Hke).
  destruct (Hk k e Hke) as (_ & _ & Hs & Ht).
  destruct (make_link_ends swap
              (bidirectionalSet
                 (collect_edges cmap (uniqueNodesMap followingsList).*2).1)
              (k, e)) as [[Hs' Ht']|[Hs' Ht']];
    simpl in Hx; rewrite Hs', Ht' in Hx; simpl in *;
    destruct Hx as [<-|[<-|[]]]; done.
Qed.

(** C9: the degrees of the nodes kept after the isolated nodes are filtered
    out add up to twice the number of links, every link counting once at its
    source and once at its target. *)
Theorem degree_sum (followingsList : list FansItem) (cmap : gmap Z (list Z))
    (swap : bool) :
  let g := buildGraph followingsList cmap swap in
  sum_list (degree g <$> nodes g) = (2 * length (links g))%nat.
Proof.
  intros g.
  set (allNodes := (uniqueNodesMap followingsList).*2).
  set (ends := endpoints (links g)).
  assert (Hdeg : ∀ n, degree g n = occurrences (id n) ends).
  { intros n. unfold degree. apply nodeDegree_lookup. }
  assert (Hnodes : nodes g = filter (λ node, id node ∈ connectedNodeIds (links g)) allNodes)
    by reflexivity.
  rewrite Hnodes, sum_list_filter.
  - rewrite (list_fmap_ext (degree g) (λ n, occurrences (id n) ends) allNodes)
      by (intros; apply Hdeg).
    transitivity (sum_list ((λ k, occurrences k ends) <$> (id <$> allNodes))).
    { by rewrite <- list_fmap_compose. }
    rewrite sum_occurrences.
    + apply length_endpoints.
    + apply allNodes_ids.
    + intros x Hx. by apply (endpoints_are_nodes followingsList cmap swap).
  - intros n _ Hn. rewrite Hdeg. apply occurrences_absent.
    intros Hin. apply Hn. by apply connectedNodeIds_spec.
Qed.

Lemma three_follows_links :
  links (buildGraph three_follows three_common false)
  = [ {| source := "1"; target := "2";
         link_color := Some LINK_COLOR_BIDIRECTIONAL |};
      {| source := "2"; target := "1";
         link_color := Some LINK_COLOR_BIDIRECTIONAL |};
      {| source := "2"; target := "3"; link_color := None |} ].
Proof. vm_compute. reflexivity. Qed.

Lemma three_follows_degrees :
  let g := buildGraph three_follows three_common false in
  (id <$> nodes g) = ["1"; "2"; "3"] ∧ degree g <$> nodes g = [2; 3; 1]%nat
  ∧ stats g = {| total := 3; connected := 3; links_count := 3 |}.
Proof. vm_compute. auto. Qed.

Lemma bidirectional_iff_reverse_present_witness :
  let g := buildGraph three_follows three_common false in
  let l := {| source := "1"; target := "2";
              link_color := Some LINK_COLOR_BIDIRECTIONAL |} in
  l ∈ links g
  ∧ ∃ l', l' ∈ links g ∧ source l' = "2" ∧ target l' = "1" ∧ tagged l'.
Proof.
  intros g l.
  assert (Hl : l ∈ links g).
  { unfold g. rewrite three_follows_links. apply elem_of_cons. by left. }
  split; [exact Hl|].
  destruct (bidirectional_iff_reverse_present three_follows three_common false
              l Hl) as [_ H].
  apply H. reflexivity.
Defined.

End GraphFacts.

(** ** Graph construction: further properties *)

Module GraphMore.

Import Js JsDefs JsFacts GraphTransform GraphDefs GraphFacts GraphMoreDefs.

(** *** No two links join the same ordered pair *)

Lemma edge_keys_of_ends (ids : list string)
    (st : list (string * Edge) * gset string) :
  edges_ok ids st →
  st.1.*1 = (λ entry, link_key (e_source entry.2) (e_target entry.2)) <$> st.1.
Proof.
  intros (_ & _ & Hk). revert Hk. generalize st.1. clear st.
  induction l as [|[k e] l IH]; intros Hk; [done|].
  rewrite !fmap_cons. f_equal.
  - simpl. apply Hk. apply elem_of_cons. by left.
  - apply IH. intros k' e' Hin. apply Hk. apply elem_of_cons. by right.
Qed.

Lemma edge_ends_NoDup (ids : list string)
    (st : list (string * Edge) * gset string) :
  edges_ok ids st →
  NoDup ((λ entry, (e_source entry.2, e_target entry.2)) <$> st.1).
Proof.
  intros Hok. pose proof Hok as (Hnd & _).
  rewrite (edge_keys_of_ends ids st Hok) in Hnd.
  apply (NoDup_fmap_1 (λ p : string * string, link_key p.1 p.2)).
  by rewrite <- list_fmap_compose.
Qed.

Lemma ends_of_make_link (swap : bool) (bs : gset string)
    (entry : string * Edge) :
  ends_of (make_link swap bs entry)
  = (if swap then (λ p : string * string, (p.2, p.1)) else (λ p, p))
      (e_source entry.2, e_target entry.2).
Proof. unfold ends_of, make_link. by destruct swap. Qed.

(** X1: the links of the built graph are pairwise distinct as ordered pairs
    (source, target). *)
Theorem links_distinct_pairs (followingsList : list FansItem)
    (cmap : gmap Z (list Z)) (swap : bool) :
  NoDup (ends_of <$> links (buildGraph followingsList cmap swap)).
Proof.
  destruct (links_of_buildGraph followingsList cmap swap) as [Hok ->].
  set (st := collect_edges cmap (uniqueNodesMap followingsList).*2) in *.
  rewrite <- list_fmap_compose.
  rewrite (list_fmap_ext _
             ((if swap then (λ p : string * string, (p.2, p.1)) else (λ p, p))
              ∘ (λ entry : string * Edge, (e_source entry.2, e_target entry.2)))
             st.1)
    by (intros; apply ends_of_make_link).
  rewrite list_fmap_compose. apply NoDup_fmap_2; [|by eapply edge_ends_NoDup].
  destruct swap; intros [a b] [c d]; simpl; congruence.
Qed.

(** *** Retained nodes and links fit together *)

Lemma occurrences_positive (k : string) (xs : list string) :
  k ∈ xs ↔ (0 < occurrences k xs)%nat.
Proof.
  unfold occurrences. rewrite list_elem_of_In. apply count_occ_In.
Qed.

Lemma endpoints_spec (ls : list GraphLink) (k : string) :
  k ∈ endpoints ls ↔ ∃ l, l ∈ ls ∧ (source l = k ∨ target l = k).
Proof.
  unfold endpoints. rewrite list_elem_of_In, in_flat_map. split.
  - intros (l & Hl & Hk). exists l. rewrite list_elem_of_In. split; [done|].
    simpl in Hk. tauto.
  - intros (l & Hl & Hk). exists l. rewrite <- list_elem_of_In.
    split; [done|]. simpl. tauto.
Qed.

(** X2: a node of the deduplicated follow list is kept exactly when some
    link starts or ends at it, and exactly when its recorded degree is
    positive. *)
Theorem retained_iff_linked (followingsList : list FansItem)
    (cmap : gmap Z (list Z)) (swap : bool) (n : GraphNode) :
  let g := buildGraph followingsList cmap swap in
  n ∈ allNodes_of followingsList →
  (n ∈ nodes g
   ↔ ∃ l, l ∈ links g ∧ (source l = id n ∨ target l = id n))
  ∧ (n ∈ nodes g ↔ (0 < degree g n)%nat).
Proof.
  intros g Hn.
  assert (Hfilter : n ∈ nodes g ↔ id n ∈ endpoints (links g)).
  { change (nodes g)
      with (filter (λ node, id node ∈ connectedNodeIds (links g))
              (allNodes_of followingsList)).
    rewrite list_elem_of_filter, connectedNodeIds_spec. tauto. }
  split.
  - by rewrite Hfilter, endpoints_spec.
  - rewrite Hfilter, occurrences_positive.
    change (degree g n) with (default 0%nat (nodeDegree (links g) !! id n)).
    by rewrite nodeDegree_lookup.
Qed.

(** X3: the graph handed to the renderer is closed: the ids of the kept
    nodes are pairwise distinct, and both ends of every link are ids of kept
    nodes. *)
Theorem links_join_retained_nodes (followingsList : list FansItem)
    (cmap : gmap Z (list Z)) (swap : bool) :
  let g := buildGraph followingsList cmap swap in
  NoDup (id <$> nodes g)
  ∧ ∀ l, l ∈ links g →
      source l ∈ id <$> nodes g ∧ target l ∈ id <$> nodes g.
Proof.
  intros g. split.
  - change (nodes g)
      with (filter (λ node, id node ∈ connectedNodeIds (links g))
              (uniqueNodesMap followingsList).*2).
    destruct (allNodes_ids followingsList) as [Hnd _].
    eapply sublist_NoDup; [exact Hnd|].
    apply fmap_sublist, sublist_filter.
  - assert (Hend : ∀ k, k ∈ endpoints (links g) → k ∈ id <$> nodes g).
    { intros k Hk.
      pose proof (endpoints_are_nodes followingsList cmap swap k Hk) as Hin.
      apply list_elem_of_fmap in Hin as (n & -> & Hn).
      apply list_elem_of_fmap_2.
      change (nodes g)
        with (filter (λ node, id node ∈ connectedNodeIds (links g))
                (uniqueNodesMap followingsList).*2).
      apply list_elem_of_filter. split; [|done].
      by apply connectedNodeIds_spec. }
    intros l Hl. split; apply Hend, endpoints_spec; exists l; auto.
Qed.

(** *** Which nodes and which links there are *)

Lemma add_user_absent (m : list (string * GraphNode)) (user : FansItem) :
  toString (mid user) ∉ m.*1 →
  add_user m user = m ++ [(toString (mid user), node_of user)].
Proof.
  intros H. unfold add_user, has_key. by rewrite bool_decide_eq_false_2.
Qed.

Lemma add_user_present (m : list (string * GraphNode)) (user : FansItem) :
  toString (mid user) ∈ m.*1 → add_user m user = m.
Proof.
  intros H. unfold add_user, has_key. by rewrite bool_decide_eq_true_2.
Qed.

Lemma add_user_keys (m : list (string * GraphNode)) (user : FansItem)
    (k : string) :
  k ∈ (add_user m user).*1 ↔ k ∈ m.*1 ∨ k = toString (mid user).
Proof.
  destruct (decide (toString (mid user) ∈ m.*1)) as [Hin|Hin].
  - rewrite add_user_present by done. split; [auto|]. by intros [H| ->].
  - rewrite add_user_absent by done.
    rewrite fmap_app, elem_of_app. simpl. by rewrite list_elem_of_singleton.
Qed.

Lemma foldl_add_user_prefix (l : list FansItem)
    (m : list (string * GraphNode)) :
  ∃ tail, foldl add_user m l = m ++ tail.
Proof.
  revert m. induction l as [|u l IH]; intros m; simpl.
  - exists []. by rewrite app_nil_r.
  - destruct (IH (add_user m u)) as [tail ->].
    destruct (decide (toString (mid u) ∈ m.*1)) as [Hin|Hin].
    + rewrite add_user_present by done. eauto.
    + rewrite add_user_absent by done. rewrite <- app_assoc. eauto.
Qed.

Lemma foldl_add_user_keys (l : list FansItem)
    (m : list (string * GraphNode)) (k : string) :
  k ∈ (foldl add_user m l).*1
  ↔ k ∈ m.*1 ∨ ∃ u, u ∈ l ∧ k = toString (mid u).
Proof.
  revert m. induction l as [|u l IH]; intros m; simpl.
  - split; [auto|]. intros [H|(u & H & _)]; [done|]. by apply elem_of_nil in H.
  - rewrite IH, add_user_keys. split.
    + intros [[H| ->]|(u' & Hu' & ->)]; [by left|..].
      * right. exists u. rewrite elem_of_cons. auto.
      * right. exists u'. rewrite elem_of_cons. auto.
    + intros [H|(u' & Hu' & ->)]; [auto|].
      apply elem_of_cons in Hu' as [->|Hu']; [auto|].
      right. eauto.
Qed.

(** The ids of the nodes are the texts of the followed mids. *)
Lemma allNodes_ids_spec (followingsList : list FansItem) (k : string) :
  k ∈ id <$> allNodes_of followingsList
  ↔ ∃ u, u ∈ followingsList ∧ k = toString (mid u).
Proof.
  unfold allNodes_of.
  destruct (uniqueNodesMap_ok followingsList) as [_ Hk].
  rewrite ids_of_values by (intros k' n H; by apply Hk).
  unfold uniqueNodesMap. rewrite foldl_add_user_keys. simpl.
  rewrite elem_of_nil. tauto.
Qed.

Lemma followingMidSet_spec (followingsList : list FansItem) (z : Z) :
  z ∈ followingMidSet (allNodes_of followingsList)
  ↔ z ∈ mid <$> followingsList.
Proof.
  unfold followingMidSet. rewrite elem_of_list_to_set, list_elem_of_omap.
  split.
  - intros (n & Hn & Hp).
    assert (Hid : id n ∈ id <$> allNodes_of followingsList)
      by by apply list_elem_of_fmap_2.
    apply allNodes_ids_spec in Hid as (u & Hu & Hid).
    rewrite Hid, parseInt_toString in Hp. injection Hp as <-.
    by apply list_elem_of_fmap_2.
  - intros Hz. apply list_elem_of_fmap in Hz as (u & -> & Hu).
    assert (Hid : toString (mid u) ∈ id <$> allNodes_of followingsList).
    { apply allNodes_ids_spec. eauto. }
    apply list_elem_of_fmap in Hid as (n & Hid & Hn).
    exists n. split; [done|]. by rewrite <- Hid, parseInt_toString.
Qed.

Lemma NoDup_fmap_eq {A B} (f : A → B) (l : list A) (x y : A) :
  NoDup (f <$> l) → x ∈ l → y ∈ l → f x = f y → x = y.
Proof.
  induction l as [|a l IH]; intros Hnd Hx Hy Hf.
  - by apply elem_of_nil in Hx.
  - rewrite fmap_cons in Hnd. apply NoDup_cons in Hnd as [Ha Hnd].
    apply elem_of_cons in Hx as [->|Hx]; apply elem_of_cons in Hy as [->|Hy].
    + done.
    + destruct Ha. rewrite Hf. by apply list_elem_of_fmap_2.
    + destruct Ha. rewrite <- Hf. by apply list_elem_of_fmap_2.
    + by apply IH.
Qed.

(** X4: the node of a mid carries the name and the colour of the mid's first
    occurrence in the follow list, and it is the only node with that id. *)
Theorem first_occurrence_wins (pre post : list FansItem) (user : FansItem) :
  (∀ u, u ∈ pre → mid u ≠ mid user) →
  node_of user ∈ allNodes_of (pre ++ user :: post)
  ∧ ∀ n, n ∈ allNodes_of (pre ++ user :: post) →
         id n = toString (mid user) → n = node_of user.
Proof.
  intros Hpre.
  assert (Hin : node_of user ∈ allNodes_of (pre ++ user :: post)).
  { unfold allNodes_of, uniqueNodesMap. rewrite foldl_app. simpl.
    set (m1 := foldl add_user [] pre).
    assert (Hno : toString (mid user) ∉ m1.*1).
    { subst m1. rewrite foldl_add_user_keys. simpl. rewrite elem_of_nil.
      intros [[]|(u & Hu & Heq)]. apply toString_inj in Heq.
      by apply (Hpre u Hu). }
    rewrite add_user_absent by done.
    destruct (foldl_add_user_prefix post
                (m1 ++ [(toString (mid user), node_of user)])) as [tail ->].
    rewrite !fmap_app, !elem_of_app. left. right.
    by apply list_elem_of_singleton. }
  split; [done|].
  intros n Hn Hid.
  destruct (allNodes_ids (pre ++ user :: post)) as [Hnd _].
  by apply (NoDup_fmap_eq id _ n (node_of user) Hnd).
Qed.

(** Keys that the edge pass has seen. *)
Lemma add_common_keys (node : GraphNode) (fset : gset Z)
    (st : list (string * Edge) * gset string) (c : Z) (k : string) :
  k ∈ (add_common node fset st c).2
  ↔ k ∈ st.2 ∨ (c ∈ fset ∧ k = link_key (id node) (toString c)).
Proof.
  unfold add_common.
  destruct (bool_decide_reflect (c ∈ fset)) as [Hc|Hc]; [|tauto].
  destruct (bool_decide_reflect (link_key (id node) (toString c) ∈ st.2))
    as [Hin|Hin]; simpl.
  - split; [auto|]. intros [H|[_ ->]]; done.
  - rewrite elem_of_union, elem_of_singleton. tauto.
Qed.

Lemma foldl_add_common_keys (node : GraphNode) (fset : gset Z)
    (cms : list Z) (st : list (string * Edge) * gset string) (k : string) :
  k ∈ (foldl (add_common node fset) st cms).2
  ↔ k ∈ st.2
    ∨ ∃ c, c ∈ cms ∧ c ∈ fset ∧ k = link_key (id node) (toString c).
Proof.
  revert st. induction cms as [|c cms IH]; intros st; simpl.
  - split; [auto|]. intros [H|(c & H & _)]; [done|]. by apply elem_of_nil in H.
  - rewrite IH, add_common_keys. split.
    + intros [[H|[Hc ->]]|(c' & Hc' & Hf & ->)]; [by left|..].
      * right. exists c. rewrite elem_of_cons. auto.
      * right. exists c'. rewrite elem_of_cons. auto.
    + intros [H|(c' & Hc' & Hf & ->)]; [auto|].
      apply elem_of_cons in Hc' as [->|Hc']; [auto|].
      right. eauto.
Qed.

Lemma add_node_edges_keys (cmap : gmap Z (list Z)) (fset : gset Z)
    (st : list (string * Edge) * gset string) (node : GraphNode)
    (k : string) :
  k ∈ (add_node_edges cmap fset st node).2
  ↔ k ∈ st.2 ∨ contributes cmap fset node k.
Proof.
  unfold add_node_edges, contributes.
  destruct (parseInt (id node)) as [m|].
  - destruct (cmap !! m) as [cms|] eqn:Hm.
    + rewrite foldl_add_common_keys. split.
      * intros [H|(c & Hc & Hf & ->)]; [by left|].
        right. exists m, cms, c. auto.
      * intros [H|(m' & cms' & c & [= <-] & Hcm & Hc & Hf & ->)]; [by left|].
        rewrite Hm in Hcm. injection Hcm as <-. right. eauto.
    + split; [auto|].
      intros [H|(m' & cms' & c & [= <-] & Hcm & _)]; [done|congruence].
  - split; [auto|]. intros [H|(m' & cms' & c & Hp & _)]; done.
Qed.

Lemma foldl_add_node_edges_keys (cmap : gmap Z (list Z)) (fset : gset Z)
    (ns : list GraphNode) (st : list (string * Edge) * gset string)
    (k : string) :
  k ∈ (foldl (add_node_edges cmap fset) st ns).2
  ↔ k ∈ st.2 ∨ ∃ node, node ∈ ns ∧ contributes cmap fset node k.
Proof.
  revert st. induction ns as [|n ns IH]; intros st; simpl.
  - split; [auto|]. intros [H|(n & H & _)]; [done|]. by apply elem_of_nil in H.
  - rewrite IH, add_node_edges_keys. split.
    + intros [[H|H]|(n' & Hn' & H)]; [by left|..].
      * right. exists n. rewrite elem_of_cons. auto.
      * right. exists n'. rewrite elem_of_cons. auto.
    + intros [H|(n' & Hn' & H)]; [auto|].
      apply elem_of_cons in Hn' as [->|Hn']; [auto|].
      right. eauto.
Qed.

(** X5: the links are exactly the follows inside the follow list: there is a
    link for the ordered pair (a, b) if and only if both are followed and b
    is listed among the common followings of a. *)
Theorem link_iff_common_following (followingsList : list FansItem)
    (cmap : gmap Z (list Z)) (swap : bool) (a b : Z) :
  (∃ l, l ∈ links (buildGraph followingsList cmap swap)
        ∧ link_between swap a b l)
  ↔ a ∈ mid <$> followingsList ∧ b ∈ mid <$> followingsList
    ∧ ∃ cms, cmap !! a = Some cms ∧ b ∈ cms.
Proof.
  destruct (links_of_buildGraph followingsList cmap swap) as [Hok ->].
  fold (allNodes_of followingsList) in *.
  set (st := collect_edges cmap (allNodes_of followingsList)) in *.
  assert (Hkeys : ∀ k, k ∈ st.1.*1 ↔
    ∃ node, node ∈ allNodes_of followingsList
            ∧ contributes cmap (followingMidSet (allNodes_of followingsList))
                node k).
  { intros k. destruct Hok as (_ & Hset & _). rewrite <- Hset.
    subst st. unfold collect_edges. rewrite foldl_add_node_edges_keys.
    simpl. rewrite elem_of_empty. tauto. }
  assert (Hlink : ∀ k e,
    link_between swap a b (make_link swap (bidirectionalSet st.1) (k, e))
    ↔ e_source e = toString a ∧ e_target e = toString b).
  { intros k e. unfold link_between, make_link. destruct swap; simpl; tauto. }
  split.
  - intros (l & Hl & Hab).
    apply list_elem_of_fmap in Hl as ([k e] & -> & Hke).
    apply Hlink in Hab as [Hs Ht].
    destruct Hok as (_ & _ & Hk).
    destruct (Hk k e Hke) as (Hkey & _).
    assert (Hin : k ∈ st.1.*1).
    { apply list_elem_of_fmap. by exists (k, e). }
    apply Hkeys in Hin as (node & Hnode & m & cms & c & Hp & Hcm & Hc & Hf & Hk').
    assert (Hid : id node ∈ id <$> allNodes_of followingsList)
      by by apply list_elem_of_fmap_2.
    apply allNodes_ids_spec in Hid as (u & Hu & Hid).
    rewrite Hid, parseInt_toString in Hp. injection Hp as <-.
    rewrite Hkey, Hs, Ht, Hid in Hk'.
    apply toString_dash_inj in Hk' as [-> ->].
    split; [by apply list_elem_of_fmap_2|].
    split; [by apply followingMidSet_spec|]. eauto.
  - intros (Ha & Hb & cms & Hcm & Hbc).
    apply list_elem_of_fmap in Ha as (u & -> & Hu).
    assert (Hid : toString (mid u) ∈ id <$> allNodes_of followingsList).
    { apply allNodes_ids_spec. eauto. }
    apply list_elem_of_fmap in Hid as (node & Hid & Hnode).
    assert (Hin : link_key (toString (mid u)) (toString b) ∈ st.1.*1).
    { apply Hkeys. exists node. split; [done|].
      exists (mid u), cms, b. rewrite <- Hid, parseInt_toString.
      repeat split; try done. by apply followingMidSet_spec. }
    apply list_elem_of_fmap in Hin as ([k e] & Hk' & Hke). simpl in Hk'.
    destruct Hok as (_ & _ & Hk).
    destruct (Hk k e Hke) as (Hkey & (a' & b' & Ha' & Hb') & _).
    rewrite Hkey, Ha', Hb' in Hk'.
    apply toString_dash_inj in Hk' as [<- <-].
    exists (make_link swap (bidirectionalSet st.1) (k, e)).
    split; [by apply list_elem_of_fmap_2|]. by apply Hlink.
Qed.

(** *** The direction flag *)

Lemma bump_comm (m : gmap string nat) (x y : string) :
  bump (bump m x) y = bump (bump m y) x.
Proof.
  apply map_eq. intros k. unfold bump.
  destruct (decide (x = y)) as [->|Hxy]; [done|].
  destruct (decide (k = x)) as [Hkx|Hkx]; destruct (decide (k = y)) as [Hky|Hky];
    subst; try done;
    repeat (rewrite ?lookup_insert_eq, ?lookup_insert_ne by done); done.
Qed.

Lemma nodeDegree_flip (ls : list GraphLink) :
  nodeDegree (flip_link <$> ls) = nodeDegree ls.
Proof.
  unfold nodeDegree. generalize (∅ : gmap string nat).
  induction ls as [|l ls IH]; intros m; [done|].
  rewrite fmap_cons. simpl. rewrite IH. f_equal. apply bump_comm.
Qed.

Lemma connectedNodeIds_flip (ls : list GraphLink) :
  connectedNodeIds (flip_link <$> ls) = connectedNodeIds ls.
Proof.
  apply set_eq. intros k. rewrite !connectedNodeIds_spec, !endpoints_spec.
  split.
  - intros (l & Hl & Hk). apply list_elem_of_fmap in Hl as (l' & -> & Hl').
    exists l'. simpl in Hk. tauto.
  - intros (l & Hl & Hk). exists (flip_link l).
    split; [by apply list_elem_of_fmap_2|]. simpl. tauto.
Qed.

(** X6: the direction flag only turns the links round: with the flag set,
    the links are those built without it with source and target exchanged
    and colours kept, in the same order; nodes, degrees and statistics are
    the same. *)
Theorem swap_only_flips_links (followingsList : list FansItem)
    (cmap : gmap Z (list Z)) :
  let g := buildGraph followingsList cmap false in
  let g' := buildGraph followingsList cmap true in
  links g' = flip_link <$> links g
  ∧ nodes g' = nodes g
  ∧ nodeDegreeMap g' = nodeDegreeMap g
  ∧ stats g' = stats g.
Proof.
  intros g g'.
  assert (Hl : links g' = flip_link <$> links g).
  { unfold g, g', buildGraph. simpl. by rewrite <- list_fmap_compose. }
  assert (Hn : nodes g' = nodes g).
  { change (nodes g')
      with (filter (λ node, id node ∈ connectedNodeIds (links g'))
              (uniqueNodesMap followingsList).*2).
    by rewrite Hl, connectedNodeIds_flip. }
  assert (Hd : nodeDegreeMap g' = nodeDegreeMap g).
  { change (nodeDegreeMap g') with (nodeDegree (links g')).
    by rewrite Hl, nodeDegree_flip. }
  repeat split; try done.
  change (stats g')
    with {| total := length (uniqueNodesMap followingsList).*2;
            connected := length (nodes g');
            links_count := length (links g') |}.
  rewrite Hn, Hl, (length_fmap flip_link). reflexivity.
Qed.

Lemma retained_iff_linked_witness :
  let g := buildGraph three_follows three_common false in
  let n := {| id := "3"; label := "C"; color := NODE_COLOR_NORMAL |} in
  n ∈ allNodes_of three_follows
  ∧ (n ∈ nodes g ↔ (0 < degree g n)%nat).
Proof.
  intros g n.
  assert (Hn : n ∈ allNodes_of three_follows).
  { vm_compute. do 2 apply list_elem_of_further. apply list_elem_of_here. }
  split; [exact Hn|].
  apply (retained_iff_linked three_follows three_common false n Hn).
Defined.

Lemma first_occurrence_wins_witness :
  let first := {| mid := 2; uname := "B"; vipStatus := 1 |} in
  let again := {| mid := 2; uname := "renamed"; vipStatus := 0 |} in
  let other := {| mid := 1; uname := "A"; vipStatus := 0 |} in
  node_of first ∈ allNodes_of ([other] ++ first :: [again]).
Proof.
  intros first again other.
  apply (first_occurrence_wins [other] [again] first).
  intros u Hu. apply list_elem_of_singleton in Hu. subst u. simpl. lia.
Defined.

End GraphMore.

(** ** Retries and rate limiting: further properties *)

Module BiliApiMore.

Import Js BiliApi BiliApiDefs BiliApiMoreDefs RateLimiter.




Lemma executeRequest_resolved (ev : XhrEvent) (data : BiliApiResponse) (st : Z) :
  executeRequest ev = resolved (data, st) →
  ∃ r, ev = onload r ∧ status r = st ∧ 200 ≤ st < 300
       ∧ responseJSON r = Some data ∧ code data = 0.
Proof.
  destruct ev as [r| |]; simpl; [|done..].
  destruct (Z.ltb_spec (status r) 200), (Z.geb_spec (status r) 300);
    simpl; try done.
  destruct (responseJSON r) as [d|] eqn:Hj; [|done].
  destruct (Z.eqb_spec (code d) 0) as [Hc|Hc].
  - intros [= <- <-]. exists r. repeat split; auto; lia.
  - by destruct (code d =? -412).
Qed.

Lemma request_loop_resolved (config : RetryConfig) (xhr : nat → XhrEvent)
    (random : nat → Q) (remaining attempt : nat) (sleeps sleeps' : list Q)
    (data : BiliApiResponse) :
  (attempt + remaining = maxRetries config)%nat →
  request_loop config xhr random remaining attempt sleeps
  = (resolved data, sleeps') →
  ∃ i st, (i ≤ maxRetries config)%nat
          ∧ executeRequest (xhr i) = resolved (data, st).
Proof.
  revert attempt sleeps.
  induction remaining as [|remaining IH]; intros attempt sleeps Hsum; simpl.
  - destruct (executeRequest (xhr attempt)) as [[d st]|e] eqn:Hex.
    + intros [= <- _]. exists attempt, st. split; [lia|done].
    + by destruct (_ || _).
  - destruct (executeRequest (xhr attempt)) as [[d st]|e] eqn:Hex.
    + intros [= <- _]. exists attempt, st. split; [lia|done].
    + destruct (_ || _); [done|]. apply IH. lia.
Qed.

(** X8: whatever [request] resolves with is the parsed body of a response
    with a 2xx transport status and application code 0, received at one of
    the attempts 0 .. maxRetries. *)
Theorem request_resolves_with_code_0 (config : RetryConfig)
    (xhr : nat → XhrEvent) (random : nat → Q) (data : BiliApiResponse)
    (sleeps : list Q) :
  request config xhr random = (resolved data, sleeps) →
  code data = 0
  ∧ ∃ i r, (i ≤ maxRetries config)%nat ∧ xhr i = onload r
           ∧ 200 ≤ status r < 300 ∧ responseJSON r = Some data.
Proof.
  intros H. apply request_loop_resolved in H as (i & st & Hi & Hex); [|lia].
  apply executeRequest_resolved in Hex as (r & Hr & <- & Hst & Hj & Hc).
  split; [done|]. exists i, r. auto.
Qed.

Lemma request_resolves_with_code_0_witness :
  code {| code := 0; message := "" |} = 0
  ∧ ∃ i r, (i ≤ maxRetries DEFAULT_RETRY_CONFIG)%nat
           ∧ limited_twice i = onload r
           ∧ 200 ≤ status r < 300
           ∧ responseJSON r = Some {| code := 0; message := "" |}.
Proof.
  apply (request_resolves_with_code_0 DEFAULT_RETRY_CONFIG limited_twice
           (λ _, 0%Q) _
           (request DEFAULT_RETRY_CONFIG limited_twice (λ _, 0%Q)).2).
  reflexivity.
Defined.




(** *** The rate limiter *)

Lemma waitForRateLimit_spacing (late last now : Z) :
  0 ≤ late →
  last + 300 ≤ waitForRateLimit late last now
  ∧ now ≤ waitForRateLimit late last now.
Proof.
  intros Hl. unfold waitForRateLimit, enter, pending_delay,
    MIN_REQUEST_INTERVAL_MS.
  destruct (Z.ltb_spec (now - last) 300); lia.
Qed.

Lemma sequential_grants_first (last : Z) (calls : list (Z * Z)) (t : Z) :
  Forall (λ c, 0 ≤ c.2) calls →
  sequential_grants last calls !! 0%nat = Some t → last + 300 ≤ t.
Proof.
  destruct calls as [|[now late] rest]; simpl; [done|].
  intros Hl [= <-]. apply Forall_cons in Hl as [Hl _].
  by apply waitForRateLimit_spacing.
Qed.

(** X10: calls made one after the other return at least 300 ms apart (and the
    first at least 300 ms after the previous request), provided no timer
    fires early. *)
Theorem sequential_calls_are_spaced (last : Z) (calls : list (Z * Z))
    (i : nat) (t t' : Z) :
  Forall (λ c, 0 ≤ c.2) calls →
  sequential_grants last calls !! i = Some t →
  sequential_grants last calls !! S i = Some t' →
  t + 300 ≤ t'.
Proof.
  revert last i. induction calls as [|[now late] rest IH]; intros last i Hl;
    simpl; [done|].
  apply Forall_cons in Hl as [_ Hl].
  destruct i as [|i]; simpl.
  - intros [= <-] H. by apply (sequential_grants_first _ rest).
  - by apply IH.
Qed.

Lemma sequential_calls_are_spaced_witness :
  sequential_grants 0 [(1000, 0); (1010, 5); (2000, 0)] = [1000; 1305; 2000]
  ∧ 1000 + 300 ≤ 1305.
Proof.
  split; [reflexivity|].
  apply (sequential_calls_are_spaced 0 [(1000, 0); (1010, 5); (2000, 0)] 0).
  - repeat constructor; simpl; lia.
  - reflexivity.
  - reflexivity.
Defined.

Lemma burst_waiting (last now : Z) (n : nat) :
  now - last < 300 →
  burst last now n = replicate n (Some (last + 300)).
Proof.
  intros H. induction n as [|n IH]; simpl; [done|].
  unfold enter, pending_delay, MIN_REQUEST_INTERVAL_MS.
  destruct (Z.ltb_spec (now - last) 300); [|lia].
  rewrite IH. do 2 f_equal. lia.
Qed.

(** X11: of several calls entered at the same instant after an idle period,
    the first passes at once and all the others are made to wait until the
    same instant, 300 ms later: the limiter spaces them from the first, not
    from one another. *)
Theorem burst_released_together (last now : Z) (n : nat) :
  300 ≤ now - last →
  burst last now (S n) = None :: replicate n (Some (now + 300)).
Proof.
  intros H. simpl. unfold enter at 1, pending_delay, MIN_REQUEST_INTERVAL_MS.
  destruct (Z.ltb_spec (now - last) 300); [lia|].
  f_equal. apply burst_waiting. lia.
Qed.

Lemma burst_released_together_witness :
  burst 0 1000 10 = None :: replicate 9 (Some 1300).
Proof. apply (burst_released_together 0 1000 9). simpl. lia. Defined.

End BiliApiMore.

(** ** Request deduplication: further properties *)

Module DedupMore.

Import JsDefs JsFacts BiliApi DedupDefs DedupFacts DedupMoreDefs.

Section More.
Variable JSON_parse :
  string → option (CacheManager.CacheItem CommonFollowingsResponse).
Variable JSON_stringify :
  CacheManager.CacheItem CommonFollowingsResponse → string.

Local Abbreviation call := (getCommonFollowings JSON_parse).
Local Abbreviation settle' := (settle JSON_stringify).
Local Abbreviation step' := (step JSON_parse JSON_stringify).
Local Abbreviation run' := (run JSON_parse JSON_stringify).

(** X12: once a request has succeeded and its response has been written to
    the cache, a call for the same identifier within the time to live is
    answered from the cache with that response, and changes nothing: no
    request is issued and nothing is registered as pending. *)
Theorem success_is_served_from_cache (w : World) (p : nat) (v : Z)
    (r : CommonFollowingsResponse) (t now : Z) :
  let w' := settle' p (resolved r) t w in
  in_flight w p v →
  JSON_parse (JSON_stringify (cached_item r t)) = Some (cached_item r t) →
  JSON_stringify (cached_item r t) ≠ EmptyString →
  (storage_size
     (<[CacheManager.prefix +:+ cacheKey v := JSON_stringify (cached_item r t)]>
        (items (storage w)))
   ≤ quota (storage w))%nat →
  now ≤ CacheManager.expiry (cached_item r t) →
  call v true now w' = (CacheHit r, w').
Proof.
  intros w' Hp Hrt Hne Hq Hnow.
  assert (Hst : getItem (CacheManager.prefix +:+ cacheKey v) (storage w')
                = Some (JSON_stringify (cached_item r t))).
  { subst w'. unfold settle. rewrite Hp. simpl.
    unfold CacheManager.set, setItem. fold (cached_item r t).
    apply Nat.leb_le in Hq. rewrite Hq. simpl.
    unfold getItem. simpl. apply lookup_insert_eq. }
  unfold getCommonFollowings.
  rewrite (CacheFacts.get_fresh JSON_parse now (cacheKey v) _ (storage w')
             (cached_item r t) Hst Hne Hrt Hnow).
  simpl. by destruct w'.
Qed.

Lemma ledger_same_core (w w' : World) :
  same_core w w' → ledger w → ledger w'.
Proof.
  intros (H1 & H2 & H3 & H4) (A & B & C).
  unfold ledger, in_flight in *. rewrite H2, H3, H4. auto.
Qed.

Lemma call_ledger (v : Z) (useCache : bool) (now : Z) (w : World) :
  ledger w → ledger (call v useCache now w).2.
Proof.
  intros Hl.
  destruct (call_cases JSON_parse v useCache now w)
    as [[_ Hs]|[(p & _ & _ & Hs)|(_ & _ & _ & Hq & Hi & Hn)]];
    [by eapply ledger_same_core .. |].
  destruct Hl as (A & B & C).
  unfold ledger, in_flight. rewrite Hq, Hi, Hn. split; [|split].
  - rewrite length_app. simpl. lia.
  - intros p. destruct (decide (p = next w)) as [->|Hne].
    + rewrite lookup_insert_eq. split; [lia|eauto].
    + rewrite lookup_insert_ne by done. rewrite B. lia.
  - intros p v'. destruct (decide (p = next w)) as [->|Hne].
    + rewrite lookup_insert_eq. intros [= <-].
      rewrite lookup_app_r by lia. by rewrite A, Nat.sub_diag.
    + rewrite lookup_insert_ne by done. intros Hp.
      rewrite lookup_app_l; [by apply C|].
      rewrite A. apply B. by eexists.
Qed.

Lemma settle_ledger (p : nat) (o : settled CommonFollowingsResponse)
    (now : Z) (w : World) :
  ledger w → ledger (settle' p o now w).
Proof.
  intros Hl.
  destruct (promises w !! p) as [[v| |]|] eqn:Hp;
    try (rewrite settle_not_in_flight; [done|];
         unfold in_flight; intros ?; congruence).
  destruct (settle_in_flight JSON_stringify p v o now w Hp)
    as (_ & H2 & H3 & H4).
  destruct Hl as (A & B & C).
  unfold ledger, in_flight. rewrite H2, H3, H4. split; [done|]. split.
  - intros q. destruct (decide (q = p)) as [->|Hne].
    + rewrite lookup_insert_eq. split; [|eauto].
      intros _. apply B. by eexists.
    + by rewrite lookup_insert_ne.
  - intros q v'. destruct (decide (q = p)) as [->|Hne].
    + rewrite lookup_insert_eq. by destruct o.
    + rewrite lookup_insert_ne by done. apply C.
Qed.

Lemma run_ledger (evs : list Event) (w : World) :
  ledger w → ledger (run' w evs).
Proof.
  revert w. induction evs as [|ev evs IH]; intros w Hw; simpl; [done|].
  apply IH. destruct ev; simpl; [by apply call_ledger | by apply settle_ledger].
Qed.

Lemma init_ledger (st : Storage) : ledger (init st).
Proof.
  unfold ledger, in_flight. simpl. split; [done|]. split.
  - intros p. rewrite lookup_empty. split; [by intros [? ?]|lia].
  - intros p v. by rewrite lookup_empty.
Qed.

(** X13: in every state reachable from module load, the pending map holds
    nothing but requests that are still in flight (so it is empty once all
    have settled), as many requests have been issued as promises created,
    and promise number [p] waits for the [p]-th request issued. *)
Theorem pending_map_has_no_stale_entry (st0 : Storage) (evs : list Event) :
  let w := run' (init st0) evs in
  (∀ k p, pendingRequests w !! k = Some p →
          ∃ v, k = pendingKey v ∧ in_flight w p v)
  ∧ ((∀ p v, ¬ in_flight w p v) → pendingRequests w = ∅)
  ∧ length (issued w) = size (promises w)
  ∧ ∀ p v, in_flight w p v → issued w !! p = Some v.
Proof.
  intros w.
  assert (Hc : consistent w)
    by apply run_consistent, init_consistent.
  assert (Hl : ledger w) by apply run_ledger, init_ledger.
  destruct Hl as (A & B & C).
  split; [apply (pending_in_flight w Hc)|]. split; [|split; [|done]].
  - intros Hnone. apply map_empty. intros k.
    destruct (pendingRequests w !! k) as [p|] eqn:Hk; [|done].
    destruct (pending_in_flight w Hc k p Hk) as (v & _ & Hv).
    by destruct (Hnone p v).
  - rewrite A. symmetry.
    assert (Hdom : dom (promises w) = set_seq 0 (next w)).
    { apply set_eq. intros p. rewrite elem_of_dom, B, elem_of_set_seq. lia. }
    rewrite <- size_dom, Hdom. apply size_set_seq.
Qed.

End More.

Lemma success_is_served_from_cache_witness :
  let w := (getCommonFollowings one_parse 7 true 0 (init empty_storage)).2 in
  let w' := settle one_text 0 (resolved one_response) 1000 w in
  getCommonFollowings one_parse 7 true 2000 w' = (CacheHit one_response, w').
Proof.
  intros w w'.
  apply (success_is_served_from_cache one_parse one_text w 0 7 one_response
           1000 2000).
  - reflexivity.
  - reflexivity.
  - discriminate.
  - vm_compute. lia.
  - vm_compute. discriminate.
Defined.

End DedupMore.

(** ** The cache: further properties *)

Module CacheMore.

Import Js CacheManager CacheManagerMore CacheDefs CacheFacts CacheMoreDefs.

Lemma prefixed_inj (key key' : string) :
  prefix +:+ key = prefix +:+ key' → key = key'.
Proof. unfold prefix. intros H. cbn in H. by simplify_eq. Qed.

Lemma startsWith_app (p s : string) : startsWith (p +:+ s) p = true.
Proof.
  induction p as [|c p IH]; simpl; [by destruct s|].
  by rewrite Ascii.eqb_refl, IH.
Qed.

Section More.
Context {T : Type}.
Variable JSON_parse : string → option (CacheItem T).
Variable JSON_stringify : CacheItem T → string.

(** What [get] returns depends on the text under the prefixed key only. *)
Lemma get_value_of_item (now : Z) (key : string) (st st' : Storage) :
  getItem (prefix +:+ key) st = getItem (prefix +:+ key) st' →
  (get JSON_parse now key st).1 = (get JSON_parse now key st').1.
Proof.
  intros H. unfold get, get_body. rewrite H.
  destruct (getItem (prefix +:+ key) st') as [item|]; [|done].
  destruct (Js.truthy item); [|done]. simpl.
  unfold parse. destruct (JSON_parse item) as [c|]; [|done]. simpl.
  by destruct (now >? expiry c).
Qed.

Lemma set_other_keys (config : CacheConfig) (t0 : Z) (key : string) (v : T)
    (st : Storage) (k' : string) :
  k' ≠ prefix +:+ key →
  getItem k' (set JSON_stringify config t0 key v st) = getItem k' st.
Proof.
  intros Hne. unfold set, setItem.
  destruct (_ <=? _)%nat; simpl; [|done].
  unfold getItem. simpl. by rewrite lookup_insert_ne.
Qed.

(** X14: a value written with [set] is read back unchanged, and the read
    leaves the storage alone, at any time up to and including its expiry of
    [expiryDays] days after the write, provided the write fitted the quota
    and the written text parses back to the item. *)
Theorem set_get_round_trip (config : CacheConfig) (t0 now : Z) (key : string)
    (v : T) (st : Storage) :
  let c := {| data := v;
              expiry := t0 + expiryDays config * 24 * 60 * 60 * 1000 |} in
  let st' := set JSON_stringify config t0 key v st in
  JSON_parse (JSON_stringify c) = Some c →
  JSON_stringify c ≠ EmptyString →
  (storage_size (<[prefix +:+ key := JSON_stringify c]> (items st))
   ≤ quota st)%nat →
  now ≤ t0 + expiryDays config * 24 * 60 * 60 * 1000 →
  get JSON_parse now key st' = (Some v, st').
Proof.
  intros c st' Hrt Hne Hq Hnow.
  assert (Hst : getItem (prefix +:+ key) st' = Some (JSON_stringify c)).
  { subst st'. unfold set, setItem. fold c.
    apply Nat.leb_le in Hq. rewrite Hq. simpl.
    unfold getItem. simpl. apply lookup_insert_eq. }
  by rewrite (get_fresh JSON_parse now key _ st' c Hst Hne Hrt).
Qed.

(** X15: [set] touches its own key only: any other cache key reads the same
    before and after, whether the write succeeded or not; and a write that
    does not fit the quota raises nothing and leaves the whole storage as it
    was. *)
Theorem set_leaves_other_keys (config : CacheConfig) (t0 now : Z)
    (key key' : string) (v : T) (st : Storage) :
  key' ≠ key →
  (get JSON_parse now key' (set JSON_stringify config t0 key v st)).1
  = (get JSON_parse now key' st).1
  ∧ ((quota st
      < storage_size
          (<[prefix +:+ key :=
               JSON_stringify
                 {| data := v;
                    expiry := t0 + expiryDays config * 24 * 60 * 60 * 1000 |}]>
             (items st)))%nat →
     set JSON_stringify config t0 key v st = st).
Proof.
  intros Hne. split.
  - apply get_value_of_item, set_other_keys.
    intros H. by apply prefixed_inj in H.
  - intros Hq. unfold set, setItem.
    apply Nat.leb_gt in Hq. by rewrite Hq.
Qed.

(** X16: after [remove], the key reads as absent and the read changes
    nothing; every other cache key reads as before. *)
Theorem remove_then_get (now : Z) (key key' : string) (st : Storage) :
  get JSON_parse now key (remove key st) = (None, remove key st)
  ∧ (key' ≠ key →
     (get JSON_parse now key' (remove key st)).1
     = (get JSON_parse now key' st).1).
Proof.
  split.
  - apply get_absent. unfold remove. simpl. apply getItem_removeItem.
  - intros Hne. apply get_value_of_item.
    unfold remove, getItem, removeItem. simpl.
    apply lookup_delete_ne. intros H. by apply prefixed_inj in H.
Qed.

End More.

Lemma clear_fold_lookup (keys : list string) (st : Storage) (k : string) :
  getItem k
    (foldl (λ st key, if startsWith key prefix then removeItem key st else st)
       st keys)
  = if decide (k ∈ keys ∧ startsWith k prefix = true) then None
    else getItem k st.
Proof.
  revert st. induction keys as [|key keys IH]; intros st; cbn [foldl].
  - case_decide as H; [|done]. destruct H as [H _]. by apply elem_of_nil in H.
  - rewrite IH. clear IH.
    destruct (decide (k ∈ keys ∧ startsWith k prefix = true)) as [[H1 H2]|Hn].
    + case_decide as H; [done|]. destruct H. split; [|done].
      apply elem_of_cons. by right.
    + destruct (decide (k = key)) as [->|Hne].
      * destruct (startsWith key prefix) eqn:Hs.
        -- case_decide as H; [apply getItem_removeItem|].
           destruct H. split; [apply elem_of_cons; by left|done].
        -- case_decide as H; [|done]. destruct H as [_ H]. congruence.
      * case_decide as H.
        -- destruct H as [H1 H2]. apply elem_of_cons in H1 as [?|H1]; [done|].
           destruct Hn. by split.
        -- destruct (startsWith key prefix); [|done].
           unfold getItem, removeItem. simpl. by apply lookup_delete_ne.
Qed.

Lemma clear_lookup (st : Storage) (k : string) :
  getItem k (clear st)
  = if startsWith k prefix then None else getItem k st.
Proof.
  unfold clear. cbn [try_catch]. rewrite clear_fold_lookup.
  destruct (startsWith k prefix) eqn:Hs.
  - case_decide as Hn; [done|].
    destruct (getItem k st) as [x|] eqn:Hk; [|done].
    destruct Hn. split; [|done].
    apply list_elem_of_fmap. exists (k, x). split; [done|].
    by apply elem_of_map_to_list.
  - case_decide as Hn; [|done]. by destruct Hn.
Qed.

(** X17: after [clear], every cache key reads as absent, whatever it held,
    and every entry of [localStorage] whose key does not start with the
    cache prefix is still there, unchanged. *)
Theorem clear_empties_the_cache_only {T : Type}
    (JSON_parse : string → option (CacheItem T)) (st : Storage) :
  (∀ now key, get JSON_parse now key (clear st) = (None, clear st))
  ∧ (∀ k, startsWith k prefix = false →
          getItem k (clear st) = getItem k st).
Proof.
  split.
  - intros now key. apply get_absent.
    by rewrite clear_lookup, startsWith_app.
  - intros k Hk. by rewrite clear_lookup, Hk.
Qed.

Lemma set_get_round_trip_witness :
  let st' := set at_text DEFAULT_CONFIG 0 "k" 7 sample_storage in
  get at_parse 86400000 "k" st' = (Some 7, st').
Proof.
  intros st'.
  apply (set_get_round_trip at_parse at_text DEFAULT_CONFIG 0 86400000 "k" 7
           sample_storage).
  - reflexivity.
  - discriminate.
  - vm_compute. lia.
  - simpl. lia.
Defined.

Lemma set_leaves_other_keys_witness :
  (get at_parse 5 "k" (set at_text DEFAULT_CONFIG 0 "other" 1 mixed_storage)).1
  = Some 7.
Proof.
  destruct (set_leaves_other_keys at_parse at_text DEFAULT_CONFIG 0 5
              "other" "k" 1 mixed_storage) as [H _].
  - discriminate.
  - rewrite H. reflexivity.
Defined.

End CacheMore.

(** ** The loaders: further properties *)

Module LoaderMore.

Import BiliApi UseGraphData PagingDefs BatchDefs LoaderMoreDefs.

(** A run of consecutive numbers, cut at one of them. *)
Lemma seq_at (a k n : nat) :
  (a ≤ k < a + n)%nat →
  seq a n = seq a (k - a) ++ k :: seq (S k) (n - (k - a) - 1).
Proof.
  intros H.
  replace n with ((k - a) + S (n - (k - a) - 1))%nat at 1 by lia.
  rewrite seq_app. cbn [seq].
  by replace (a + (k - a))%nat with k by lia.
Qed.

Lemma page_numbers_ends (k : nat) :
  (2 ≤ k)%nat →
  page_numbers 1 k = 1 :: page_numbers 2 (k - 2) ++ [Z.of_nat k].
Proof.
  intros H. unfold page_numbers.
  destruct k as [|[|k]]; try lia.
  replace (S (S k) - 2)%nat with k by lia.
  change (seq 1 (S (S k))) with (1%nat :: seq 2 (S k)).
  rewrite seq_S, fmap_cons, fmap_app. reflexivity.
Qed.

Section Pages.
Variable getFollowingsList : Z → Z → completion JsError FansResponse.

Local Abbreviation load_pages' := (load_pages getFollowingsList).

(** The page loop over pages that are all delivered. *)
Lemma load_pages_delivered (total : Z) (pages : list Z)
    (acc : list FansItem) (tr : list Effect) :
  Forall (λ pn, ∃ r, getFollowingsList pageSize pn = Normal r) pages →
  (load_pages' total pages acc tr).2
  = Normal (acc ++ mjoin (page_items getFollowingsList <$> pages))
  ∧ List.filter is_page_fetch (load_pages' total pages acc tr).1
    = List.filter is_page_fetch tr ++ (FetchPage pageSize <$> pages)
  ∧ List.filter is_warning (load_pages' total pages acc tr).1
    = List.filter is_warning tr
      ++ (Warn <$> List.filter (malformed getFollowingsList) pages).
Proof.
  revert acc tr. induction pages as [|pn pages IH]; intros acc tr Hall.
  - simpl. by rewrite !app_nil_r.
  - apply Forall_cons in Hall as [[r Hr] Hall].
    cbn [load_pages]. rewrite Hr.
    rewrite !fmap_cons. cbn [List.filter mjoin list_join].
    unfold page_items at 1, malformed at 1. rewrite Hr.
    destruct (fans_list r) as [l|]; cbn [default];
      destruct (pn mod 5 =? 0);
      match goal with
      | |- context [load_pages _ _ _ ?a ?t] =>
          destruct (IH a t Hall) as (-> & -> & ->)
      end;
      rewrite ?List.filter_app; cbn [List.filter is_page_fetch is_warning];
      rewrite ?app_nil_r, <- ?app_assoc; cbn [app fmap list_fmap];
      rewrite ?app_nil_r; done.
Qed.

(** The page loop when a page fails. *)
Lemma load_pages_aborts (total : Z) (pre post : list Z) (pn : Z) (e : JsError)
    (acc : list FansItem) (tr : list Effect) :
  Forall (λ pn, ∃ r, getFollowingsList pageSize pn = Normal r) pre →
  getFollowingsList pageSize pn = Throw e →
  (load_pages' total (pre ++ pn :: post) acc tr).2 = Throw e
  ∧ List.filter is_page_fetch (load_pages' total (pre ++ pn :: post) acc tr).1
    = List.filter is_page_fetch tr ++ (FetchPage pageSize <$> pre ++ [pn]).
Proof.
  revert acc tr. induction pre as [|p pre IH]; intros acc tr Hall He.
  - simpl. rewrite He. simpl. split; [done|].
    by rewrite List.filter_app.
  - apply Forall_cons in Hall as [[r Hr] Hall].
    cbn [app load_pages]. rewrite Hr.
    destruct (fans_list r) as [l|]; destruct (p mod 5 =? 0);
      match goal with
      | |- context [load_pages _ _ _ ?a ?t] =>
          destruct (IH a t Hall He) as [-> ->]
      end;
      (split; [done|]);
      rewrite ?List.filter_app; cbn [List.filter is_page_fetch];
      rewrite ?app_nil_r, <- ?app_assoc; done.
Qed.

(** X18: when page 1 is delivered with a list and all the pages up to
    ceil(total / 50) are delivered, the follow list is the items of page 1
    followed by those of pages 2, 3, ... in order; a page delivered without a
    list adds nothing and is reported by one warning; the pages requested
    are exactly 1 .. ceil(total / 50), each once, in order. *)
Theorem pages_are_appended_in_order (r1 : FansResponse) (l1 : list FansItem) :
  let pages :=
    page_numbers 2 (Z.to_nat (ceil_div (fans_total r1) pageSize - 1)) in
  getFollowingsList pageSize 1 = Normal r1 →
  fans_list r1 = Some l1 →
  Forall (λ pn, ∃ r, getFollowingsList pageSize pn = Normal r) pages →
  (loadAllData_followings getFollowingsList).2
  = Normal (l1 ++ mjoin (page_items getFollowingsList <$> pages))
  ∧ List.filter is_page_fetch (loadAllData_followings getFollowingsList).1
    = FetchPage pageSize <$> 1 :: pages
  ∧ List.filter is_warning (loadAllData_followings getFollowingsList).1
    = Warn <$> List.filter (malformed getFollowingsList) pages.
Proof.
  intros pages H1 Hl1 Hall. unfold loadAllData_followings.
  rewrite H1, Hl1.
  destruct (load_pages_delivered (fans_total r1) pages l1
              [FetchPage pageSize 1] Hall) as (Ha & Hb & Hc).
  unfold pages, page_numbers in Ha, Hb, Hc |- *.
  by rewrite Ha, Hb, Hc.
Qed.

(** X19: the first page that fails ends the loading with that page's error:
    no later page is requested, and no follow list is produced. *)
Theorem first_failing_page_aborts (r1 : FansResponse) (l1 : list FansItem)
    (k : nat) (e : JsError) :
  getFollowingsList pageSize 1 = Normal r1 →
  fans_list r1 = Some l1 →
  (2 ≤ k)%nat → Z.of_nat k ≤ ceil_div (fans_total r1) pageSize →
  (∀ i, (2 ≤ i < k)%nat →
        ∃ r, getFollowingsList pageSize (Z.of_nat i) = Normal r) →
  getFollowingsList pageSize (Z.of_nat k) = Throw e →
  (loadAllData_followings getFollowingsList).2 = Throw e
  ∧ List.filter is_page_fetch (loadAllData_followings getFollowingsList).1
    = FetchPage pageSize <$> page_numbers 1 k.
Proof.
  intros H1 Hl1 Hk HkP Hpre He. unfold loadAllData_followings.
  rewrite H1, Hl1.
  set (n := Z.to_nat (ceil_div (fans_total r1) pageSize - 1)).
  assert (Hsplit : Z.of_nat <$> seq 2 n
            = page_numbers 2 (k - 2)
              ++ Z.of_nat k :: page_numbers (S k) (n - (k - 1))).
  { unfold page_numbers.
    rewrite (seq_at 2 k n) by (subst n; lia).
    rewrite fmap_app, fmap_cons. do 4 f_equal. lia. }
  rewrite Hsplit.
  destruct (load_pages_aborts (fans_total r1) (page_numbers 2 (k - 2))
              (page_numbers (S k) (n - (k - 1))) (Z.of_nat k) e l1
              [FetchPage pageSize 1]) as [-> ->].
  - apply Forall_forall. intros pn Hpn.
    apply list_elem_of_fmap in Hpn as (i & -> & Hi).
    apply elem_of_seq in Hi. apply Hpre. lia.
  - done.
  - split; [done|]. rewrite (page_numbers_ends k) by done.
    cbn [List.filter is_page_fetch app]. by rewrite fmap_cons.
Qed.

End Pages.

Lemma pages_are_appended_in_order_witness :
  (loadAllData_followings (flaky_server 150)).2
  = Normal [{| mid := 1; uname := "u"; vipStatus := 0 |};
            {| mid := 2; uname := "u"; vipStatus := 0 |}]
  ∧ List.filter is_warning (loadAllData_followings (flaky_server 150)).1
    = [Warn 3].
Proof.
  destruct (pages_are_appended_in_order (flaky_server 150)
              {| fans_list :=
                   Some [{| mid := 1; uname := "u"; vipStatus := 0 |}];
                 fans_total := 150 |}
              [{| mid := 1; uname := "u"; vipStatus := 0 |}])
    as (H & _ & Hw).
  - reflexivity.
  - reflexivity.
  - repeat constructor; eexists; reflexivity.
  - split; [exact H | exact Hw].
Defined.

Lemma first_failing_page_aborts_witness :
  (loadAllData_followings (flaky_server 200)).2
  = Throw {| err_message := msg_timeout; statusCode := None |}
  ∧ List.filter is_page_fetch (loadAllData_followings (flaky_server 200)).1
    = FetchPage pageSize <$> [1; 2; 3; 4].
Proof.
  apply (first_failing_page_aborts (flaky_server 200)
           {| fans_list :=
                Some [{| mid := 1; uname := "u"; vipStatus := 0 |}];
              fans_total := 200 |}
           [{| mid := 1; uname := "u"; vipStatus := 0 |}] 4).
  - reflexivity.
  - reflexivity.
  - lia.
  - vm_compute. discriminate.
  - intros i Hi. assert (i = 2 ∨ i = 3)%nat as [-> | ->] by lia;
      eexists; reflexivity.
  - reflexivity.
Defined.

End LoaderMore.

(** ** The loaders: a paged list is read back; every identifier is fetched *)

Module LoaderRoundTrip.

Import BiliApi UseGraphData PagingDefs BatchDefs LoaderMoreDefs.

(** Consecutive slices of fifty add up to a prefix. *)
Lemma join_slices {A} (items : list A) (n a : nat) :
  mjoin ((λ p : nat, take 50 (drop (50 * (p - 1)) items)) <$> seq (S a) n)
  = take (50 * n) (drop (50 * a) items).
Proof.
  revert a. induction n as [|n IH]; intros a.
  - by rewrite Nat.mul_0_r.
  - cbn [seq]. rewrite fmap_cons. cbn [mjoin list_join]. rewrite IH.
    replace (50 * (S a - 1))%nat with (50 * a)%nat by lia.
    replace (50 * S a)%nat with (50 * a + 50)%nat by lia.
    rewrite <- drop_drop.
    replace (50 * S n)%nat with (50 + 50 * n)%nat by lia.
    apply take_take_drop.
Qed.

Lemma page_items_paged_server (items : list FansItem) (p : nat) :
  (1 ≤ p)%nat →
  page_items (paged_server items) (Z.of_nat p)
  = take 50 (drop (50 * (p - 1)) items).
Proof.
  intros Hp. unfold page_items, paged_server, pageSize.
  cbn [default fans_list from_option id].
  change (Z.to_nat 50) with 50%nat. do 2 f_equal. lia.
Qed.

Lemma ceil_div_covers (n : Z) :
  0 ≤ n → n ≤ 50 * ceil_div n 50 ∧ 0 ≤ ceil_div n 50.
Proof.
  intros Hn. unfold ceil_div.
  pose proof (Z.div_mod (- n) 50 ltac:(lia)) as Hd.
  pose proof (Z.mod_pos_bound (- n) 50 ltac:(lia)) as Hm.
  lia.
Qed.

(** X20: a list of any length, served in pages of fifty, is read back
    unchanged: the loading requests pages 1 .. max(1, ceil(n / 50)), each
    once and in order, reports no malformed page and returns the list. *)
Theorem paged_list_is_read_back (items : list FansItem) :
  let run := loadAllData_followings (paged_server items) in
  run.2 = Normal items
  ∧ List.filter is_page_fetch run.1
    = FetchPage pageSize
      <$> page_numbers 1
            (Z.to_nat (Z.max 1 (ceil_div (Z.of_nat (length items)) pageSize)))
  ∧ List.filter is_warning run.1 = [].
Proof.
  intros run. subst run.
  set (n := Z.to_nat (ceil_div (Z.of_nat (length items)) pageSize - 1)).
  destruct (ceil_div_covers (Z.of_nat (length items)) ltac:(lia)) as [Hc Hc0].
  unfold loadAllData_followings.
  change (paged_server items pageSize 1)
    with (Normal (E := JsError)
            {| fans_list := Some (take 50 items);
               fans_total := Z.of_nat (length items) |}).
  cbn [fans_list fans_total]. fold n. fold (page_numbers 2 n).
  destruct (LoaderMore.load_pages_delivered (paged_server items)
              (Z.of_nat (length items)) (page_numbers 2 n) (take 50 items)
              [FetchPage pageSize 1]) as (Hr & Hf & Hw).
  - apply Forall_forall. intros pn _. eexists. reflexivity.
  - rewrite Hr, Hf, Hw. split; [|split].
    + f_equal. unfold page_numbers. rewrite <- list_fmap_compose.
      rewrite (list_fmap_ext _
                 (λ p : nat, take 50 (drop (50 * (p - 1)) items))).
      2:{ intros i p Hp. apply lookup_seq in Hp as [-> _].
          apply page_items_paged_server. lia. }
      rewrite join_slices. rewrite take_take_drop.
      apply take_ge. unfold pageSize in *. lia.
    + f_equal. unfold page_numbers.
      replace (Z.to_nat (Z.max 1 (ceil_div (Z.of_nat (length items)) pageSize)))
        with (S n) by (unfold n, pageSize in *; lia).
      reflexivity.
    + assert (Hno : ∀ pages, List.filter (malformed (paged_server items)) pages = []).
      { induction pages as [|p pages IH]; [done|]. exact IH. }
      by rewrite Hno.
Qed.

Section Fetches.
Variable getCommonFollowings : Z → completion JsError CommonFollowingsResult.
Variable completion_order : list Z → list Z.

Lemma filter_fetches (b : list Z) :
  List.filter is_common_fetch (FetchCommon <$> b) = FetchCommon <$> b.
Proof. induction b as [|m b IH]; [done|]. rewrite fmap_cons. simpl. by rewrite IH. Qed.

(** The fetches the batched loop starts from index [i] on. *)
Lemma batch_loop_fetches (mids : list Z) (fuel i : nat)
    (map : gmap Z (list Z)) (tr : list Effect) :
  (length mids ≤ i + fuel)%nat →
  List.filter is_common_fetch
    (batch_loop getCommonFollowings completion_order fuel i mids map tr).2
  = List.filter is_common_fetch tr ++ (FetchCommon <$> drop i mids).
Proof.
  revert i map tr. induction fuel as [|fuel IH]; intros i map tr Hlen.
  - rewrite drop_ge by lia. simpl. by rewrite app_nil_r.
  - cbn [batch_loop].
    destruct (Nat.ltb_spec i (length mids)) as [Hi|Hi].
    + rewrite IH by (unfold batchSize; lia).
      assert (Hsplit : FetchCommon <$> drop i mids
                = (FetchCommon <$> take batchSize (drop i mids))
                  ++ (FetchCommon <$> drop (i + batchSize) mids)).
      { rewrite <- fmap_app, <- drop_drop. by rewrite take_drop. }
      rewrite Hsplit.
      destruct (_ || _); destruct (_ <? _)%nat;
        rewrite ?List.filter_app, ?filter_fetches;
        cbn [List.filter is_common_fetch];
        rewrite ?app_nil_r, <- ?app_assoc; done.
    + rewrite drop_ge by lia. simpl. by rewrite app_nil_r.
Qed.

Lemma load_relations_fetches (uids : list Z) (following : gmap Z (list Z))
    (tr : list Effect) :
  List.filter is_common_fetch
    (SequentialLoader.load_relations getCommonFollowings uids following tr).2
  = List.filter is_common_fetch tr ++ (FetchCommon <$> uids).
Proof.
  revert following tr. induction uids as [|uid uids IH]; intros following tr;
    simpl.
  - by rewrite app_nil_r.
  - destruct (getCommonFollowings uid) as [result|e]; rewrite IH;
      rewrite List.filter_app; simpl; by rewrite <- ?app_assoc.
Qed.

(** X21: both loaders call [getCommonFollowings] for every followed
    identifier exactly once and in list order, whatever the calls return:
    a failed call is neither repeated nor does it end the loading. *)
Theorem every_identifier_is_fetched_once (mids : list Z) :
  List.filter is_common_fetch
    (loadCommonFollowingsBatch getCommonFollowings completion_order mids).2
  = FetchCommon <$> mids
  ∧ List.filter is_common_fetch
      (SequentialLoader.load_relations getCommonFollowings mids ∅ []).2
    = FetchCommon <$> mids.
Proof.
  split.
  - unfold loadCommonFollowingsBatch.
    rewrite batch_loop_fetches by lia. by rewrite drop_0.
  - by rewrite load_relations_fetches.
Qed.

End Fetches.

End LoaderRoundTrip.

(** ** The incremental graph of ReactForceGraph *)

Module ReactForceGraphFacts.

Import ReactForceGraph ReactForceGraphDefs.

Lemma elem_of_filter_bool {A} (f : A → bool) (l : list A) (x : A) :
  x ∈ List.filter f l ↔ x ∈ l ∧ f x = true.
Proof. rewrite !list_elem_of_In. apply filter_In. Qed.

Lemma filter_sublist {A} (f : A → bool) (l : list A) :
  List.filter f l `sublist_of` l.
Proof.
  induction l as [|x l IH]; simpl; [done|].
  destruct (f x); by constructor.
Qed.

(** A filter that drops nothing changes nothing. *)
Lemma filter_full {A} (f : A → bool) (l : list A) :
  length (List.filter f l) = length l → List.filter f l = l.
Proof.
  induction l as [|x l IH]; simpl; [done|].
  pose proof (sublist_length _ _ (filter_sublist f l)) as Hle.
  destruct (f x); simpl; intros H; [f_equal; apply IH; lia | lia].
Qed.

Lemma filter_all {A} (f : A → bool) (l : list A) :
  (∀ x, x ∈ l → f x = true) → List.filter f l = l.
Proof.
  induction l as [|x l IH]; simpl; intros H; [done|].
  rewrite (H x) by apply list_elem_of_here.
  f_equal. apply IH. intros y Hy. apply H. by apply list_elem_of_further.
Qed.

Lemma filter_none {A} (f : A → bool) (l : list A) :
  (∀ x, x ∈ l → f x = false) → List.filter f l = [].
Proof.
  induction l as [|x l IH]; simpl; intros H; [done|].
  rewrite (H x) by apply list_elem_of_here.
  apply IH. intros y Hy. apply H. by apply list_elem_of_further.
Qed.

Lemma connected_fold (ls : list GraphLink) (s : gset Z) (i : Z) :
  i ∈ foldl (λ s link,
               {[ endpoint_id (target link) ]}
               ∪ ({[ endpoint_id (source link) ]} ∪ s)) s ls
  ↔ i ∈ s
    ∨ ∃ l, l ∈ ls ∧ (endpoint_id (source l) = i ∨ endpoint_id (target l) = i).
Proof.
  revert s. induction ls as [|l ls IH]; intros s; simpl.
  - split; [by left|]. intros [H|(l & Hl & _)]; [done|].
    by apply elem_of_nil in Hl.
  - rewrite IH. rewrite !elem_of_union, !elem_of_singleton. split.
    + intros [[Ht|[Hs|Hi]]|(l' & Hl' & H)].
      * right. exists l. split; [apply list_elem_of_here|by right].
      * right. exists l. split; [apply list_elem_of_here|by left].
      * by left.
      * right. exists l'. split; [by apply list_elem_of_further|done].
    + intros [Hi|(l' & Hl' & H)]; [by left; right; right|].
      apply elem_of_cons in Hl' as [->|Hl'].
      * left. destruct H as [H|H]; [right; by left | by left].
      * right. by exists l'.
Qed.

(** [connectedNodeIds] holds exactly the ends of the links. *)
Lemma connected_ids_are_link_ends (g : GraphData) (n : GraphNode) :
  id n ∈ connectedNodeIds (links g) ↔ linked g n.
Proof.
  unfold connectedNodeIds, linked. rewrite connected_fold. split.
  - intros [H|H]; [by apply elem_of_empty in H | done].
  - intros H. by right.
Qed.

(** *** addNodesToGraph *)

(** The nodes that [addNodesToGraph] appends. *)
Lemma addNodes_nodes (newNodes : list GraphNode) (prev : GraphData) :
  nodes (addNodesToGraph newNodes prev).1
  = nodes prev
    ++ List.filter (λ n, negb (bool_decide (id n ∈ ids prev))) newNodes.
Proof.
  unfold addNodesToGraph, ids.
  assert (Hf : List.filter
                 (λ n, negb (bool_decide
                    (id n ∈ (list_to_set (id <$> nodes prev) : gset Z))))
                 newNodes
             = List.filter (λ n, negb (bool_decide (id n ∈ id <$> nodes prev)))
                 newNodes).
  { apply filter_ext. intros n. f_equal. apply bool_decide_ext.
    apply elem_of_list_to_set. }
  rewrite Hf. clear Hf.
  destruct (List.filter _ newNodes) as [|x l] eqn:E; simpl.
  - by rewrite app_nil_r.
  - done.
Qed.

Lemma addNodes_links (newNodes : list GraphNode) (prev : GraphData) :
  links (addNodesToGraph newNodes prev).1 = links prev.
Proof.
  unfold addNodesToGraph. by destruct (_ =? _)%nat.
Qed.

Lemma addNodes_ids_spec (newNodes : list GraphNode) (prev : GraphData)
    (i : Z) :
  i ∈ ids (addNodesToGraph newNodes prev).1
  ↔ i ∈ ids prev ∨ i ∈ id <$> newNodes.
Proof.
  unfold ids at 1. rewrite addNodes_nodes, fmap_app, elem_of_app.
  split.
  - intros [H|H]; [by left|]. right.
    apply list_elem_of_fmap in H as (n & -> & Hn).
    apply elem_of_filter_bool in Hn as [Hn _].
    by apply list_elem_of_fmap_2.
  - intros [H|H]; [by left|].
    destruct (decide (i ∈ ids prev)) as [Hi|Hi]; [by left|]. right.
    apply list_elem_of_fmap in H as (n & -> & Hn).
    apply list_elem_of_fmap_2. apply elem_of_filter_bool. split; [done|].
    by rewrite bool_decide_eq_false_2.
Qed.

(** X22: [addNodesToGraph] keeps the links and the nodes already present, in
    place, and appends new ones: afterwards the identifiers in the graph are
    those present before together with those of the batch; the statistics,
    when it sets them, are the sizes of the new graph. *)
Theorem addNodes_extends (newNodes : list GraphNode) (prev : GraphData) :
  let next := (addNodesToGraph newNodes prev).1 in
  links next = links prev
  ∧ nodes prev `prefix_of` nodes next
  ∧ (∀ i, i ∈ ids next ↔ i ∈ ids prev ∨ i ∈ id <$> newNodes)
  ∧ (∀ st, (addNodesToGraph newNodes prev).2 = Some st →
           nodeCount st = length (nodes next)
           ∧ linkCount st = length (links next)).
Proof.
  intros next. subst next. split; [apply addNodes_links|]. split; [|split].
  - rewrite addNodes_nodes. by eexists.
  - intros i. apply addNodes_ids_spec.
  - intros st. unfold addNodesToGraph.
    destruct (_ =? _)%nat; [done|]. intros [= <-]. done.
Qed.

(** X23: when the identifiers in the graph are distinct and those of the batch
    are distinct, the identifiers are distinct after [addNodesToGraph]. *)
Theorem addNodes_keeps_ids_distinct (newNodes : list GraphNode)
    (prev : GraphData) :
  NoDup (ids prev) → NoDup (id <$> newNodes) →
  NoDup (ids (addNodesToGraph newNodes prev).1).
Proof.
  intros Hprev Hnew.
  change (NoDup (id <$> nodes (addNodesToGraph newNodes prev).1)).
  rewrite addNodes_nodes, fmap_app.
  apply NoDup_app. split; [done|]. split.
  - intros i Hi H. apply list_elem_of_fmap in H as (n & -> & Hn).
    apply elem_of_filter_bool in Hn as [_ Hn].
    apply negb_true_iff, bool_decide_eq_false in Hn. done.
  - eapply sublist_NoDup; [exact Hnew|].
    apply fmap_sublist, filter_sublist.
Qed.

(** X24: the batch itself is not deduplicated: a node that is new to the
    graph and occurs twice in one batch is appended twice. *)
Theorem addNodes_batch_is_not_deduplicated (n : GraphNode) (prev : GraphData) :
  id n ∉ ids prev →
  nodes (addNodesToGraph [n; n] prev).1 = nodes prev ++ [n; n].
Proof.
  intros Hn. rewrite addNodes_nodes. simpl.
  by rewrite bool_decide_eq_false_2.
Qed.

(** X25: adding the same batch again changes nothing and sets no
    statistics. *)
Theorem addNodes_twice (newNodes : list GraphNode) (prev : GraphData) :
  addNodesToGraph newNodes (addNodesToGraph newNodes prev).1
  = ((addNodesToGraph newNodes prev).1, None).
Proof.
  set (next := (addNodesToGraph newNodes prev).1).
  assert (Hall : ∀ n, n ∈ newNodes → id n ∈ ids next).
  { intros n Hn.
    apply (addNodes_ids_spec newNodes prev (id n)).
    right. by apply list_elem_of_fmap_2. }
  unfold addNodesToGraph at 1.
  rewrite (filter_none _ newNodes); [done|].
  intros n Hn. apply negb_false_iff, bool_decide_eq_true.
  apply elem_of_list_to_set. by apply Hall.
Qed.

(** *** handleRemoveIsolatedNodes *)

Lemma remove_nodes (g : GraphData) (st : Stats) :
  nodes (handleRemoveIsolatedNodes g st).1.1
  = List.filter (λ node, bool_decide (id node ∈ connectedNodeIds (links g)))
      (nodes g).
Proof.
  unfold handleRemoveIsolatedNodes.
  pose proof (sublist_length _ _
    (filter_sublist
       (λ node, bool_decide (id node ∈ connectedNodeIds (links g)))
       (nodes g))) as Hle.
  destruct (Nat.eqb_spec
    (length (nodes g)
     - length (List.filter
         (λ node, bool_decide (id node ∈ connectedNodeIds (links g)))
         (nodes g))) 0) as [H0|H0]; simpl; [|done].
  symmetry. apply filter_full. lia.
Qed.

Lemma remove_links (g : GraphData) (st : Stats) :
  links (handleRemoveIsolatedNodes g st).1.1 = links g.
Proof.
  unfold handleRemoveIsolatedNodes. by destruct (_ =? _)%nat.
Qed.

(** X26: [handleRemoveIsolatedNodes] keeps the links, and keeps, in their
    order, exactly the nodes that are an end of some link. *)
Theorem remove_isolated_keeps_linked (g : GraphData) (st : Stats) :
  let g' := (handleRemoveIsolatedNodes g st).1.1 in
  links g' = links g
  ∧ nodes g' `sublist_of` nodes g
  ∧ ∀ n, n ∈ nodes g' ↔ n ∈ nodes g ∧ linked g n.
Proof.
  intros g'. subst g'. split; [apply remove_links|].
  rewrite remove_nodes. split; [apply filter_sublist|].
  intros n. rewrite elem_of_filter_bool, bool_decide_eq_true.
  by rewrite connected_ids_are_link_ends.
Qed.

(** X27: the message of [handleRemoveIsolatedNodes] tells what happened:
    without an isolated node the graph and the statistics stay as they are;
    otherwise the count reported is positive, it is the number of nodes
    dropped, and the statistics are the sizes of the new graph. *)
Theorem remove_isolated_reports (g : GraphData) (st : Stats) :
  match handleRemoveIsolatedNodes g st with
  | (g', st', NoIsolatedNodes) =>
      g' = g ∧ st' = st ∧ ∀ n, n ∈ nodes g → linked g n
  | (g', st', RemovedIsolatedNodes k) =>
      (0 < k)%nat
      ∧ (length (nodes g') + k = length (nodes g))%nat
      ∧ nodeCount st' = length (nodes g')
      ∧ linkCount st' = length (links g')
  end.
Proof.
  unfold handleRemoveIsolatedNodes.
  set (f := λ node, bool_decide (id node ∈ connectedNodeIds (links g))).
  pose proof (sublist_length _ _ (filter_sublist f (nodes g))) as Hle.
  destruct (Nat.eqb_spec (length (nodes g) - length (List.filter f (nodes g))) 0)
    as [H0|H0].
  - split; [done|]. split; [done|]. intros n Hn.
    assert (Hfull : List.filter f (nodes g) = nodes g)
      by (apply filter_full; lia).
    rewrite <- Hfull in Hn. apply elem_of_filter_bool in Hn as [_ Hn].
    apply bool_decide_eq_true in Hn. by apply connected_ids_are_link_ends.
  - simpl. repeat split; lia.
Qed.

(** X28: after [handleRemoveIsolatedNodes] no isolated node is left: a second
    call reports that there is none and changes nothing. *)
Theorem remove_isolated_twice (g : GraphData) (st : Stats) :
  let '(g', st', _) := handleRemoveIsolatedNodes g st in
  handleRemoveIsolatedNodes g' st' = (g', st', NoIsolatedNodes).
Proof.
  destruct (handleRemoveIsolatedNodes g st) as [[g' st'] msg] eqn:E.
  assert (Hl : links g' = links g).
  { pose proof (remove_links g st) as H. by rewrite E in H. }
  assert (Hn : nodes g'
            = List.filter
                (λ node, bool_decide (id node ∈ connectedNodeIds (links g)))
                (nodes g)).
  { pose proof (remove_nodes g st) as H. by rewrite E in H. }
  unfold handleRemoveIsolatedNodes. rewrite Hl.
  rewrite (filter_all _ (nodes g')).
  - by rewrite Nat.sub_diag.
  - intros n Hin. rewrite Hn in Hin.
    by apply elem_of_filter_bool in Hin as [_ Hin].
Qed.

Lemma addNodes_keeps_ids_distinct_witness :
  NoDup (ids (addNodesToGraph [node 3; node 4] sample_graph).1).
Proof.
  apply (addNodes_keeps_ids_distinct [node 3; node 4] sample_graph).
  - vm_compute. repeat constructor; compute_done.
  - vm_compute. repeat constructor; compute_done.
Defined.

Lemma addNodes_batch_is_not_deduplicated_witness :
  nodes (addNodesToGraph [node 4; node 4] sample_graph).1
  = [node 1; node 2; node 3; node 4; node 4].
Proof.
  apply (addNodes_batch_is_not_deduplicated (node 4) sample_graph).
  compute_done.
Defined.

End ReactForceGraphFacts.
